(** * Malnutrition dashboard: place-name reconciliation and aggregation

    A shallow embedding of [dashboard.py]: the reconciliation of the
    [State] column against the names of the boundary document
    (lines 43-58), the group-by aggregation of panel 1 (lines 75-98)
    and the derived [Mother_BMI] column of panel 5 (lines 176-177).

    The script leaves the matching of names to
    [difflib.get_close_matches] of the Python standard library. Module
    [difflib] below embeds that function and what it calls
    ([SequenceMatcher] in [Lib/difflib.py], [heapq.nlargest]) statement
    by statement, for the arguments of line 54 ([n=1], [isjunk=None]).
    The pandas calls are embedded by what they return: [isin],
    [unique], [replace] with a dict, [groupby(...).size()], [merge],
    [sort_values], [head], and the assignment of a column.

    Conventions of the embedding.
    - A Python [str] is a [string], one character per code point; the
      order on [str] is [String.compare].
    - A Python [set] is a duplicate-free list in its iteration order; the
      results that do not depend on that order are proved not to.
    - A Python [dict] is a [gmap].
    - The floats of [difflib] and of the percentage column are exact
      rationals ([Q]): every score is [2 * m / t] for small naturals
      [m, t], so its comparisons with [0.6] and with another score are
      those of the rationals.
    - A missing cell of the table (pandas' NaN) is [None]. *)

From Stdlib Require Import QArith OrderedTypeEx.
From stdpp Require Import gmap gmultiset strings list sorting.

Local Open Scope nat_scope.

(** ** [difflib]: the matcher behind [get_close_matches] *)

Module difflib.

(** [Match = namedtuple('Match', 'a b size')] *)
Definition Match : Type := nat * nat * nat.

(** [_calculate_ratio(matches, length)] *)
Definition calculate_ratio (matches length : nat) : Q :=
  if length is 0 then 1%Q
  else (2 * inject_Z (Z.of_nat matches) / inject_Z (Z.of_nat length))%Q.

Section SequenceMatcher.
Context `{Countable A}.

(** [SequenceMatcher()] is built with [isjunk=None]: [bjunk] stays the
    empty set. *)
Definition bjunk : gset A := ∅.
Definition isbjunk (x : A) : bool := bool_decide (x ∈ bjunk).

(** [__chain_b]: [b2j[x]] lists the indices of [x] in [b], in increasing
    order; when [b] has 200 elements or more, the elements that occur
    more than [n // 100 + 1] times are purged. *)
Definition chain_b_index (b2j : gmap A (list nat)) (ie : nat * A) : gmap A (list nat) :=
  <[ie.2 := default [] (b2j !! ie.2) ++ [ie.1]]> b2j.

Definition chain_b (b : list A) : gmap A (list nat) :=
  let b2j := foldl chain_b_index ∅ (imap pair b) in
  let n := length b in
  if bool_decide (200 ≤ n) then
    let ntest := n / 100 + 1 in
    filter (λ ei : A * list nat, ¬ (ntest < length ei.2)) b2j
  else b2j.

(** The two sequences are equal at the given indices ([a[i] == b[j]]). *)
Definition same_at (a b : list A) (i j : nat) : bool :=
  match a !! i, b !! j with
  | Some x, Some y => bool_decide (x = y)
  | _, _ => false
  end.

Definition junk_at (b : list A) (j : nat) : bool :=
  match b !! j with
  | Some y => isbjunk y
  | None => false
  end.

(** The state of the search: [(besti, bestj, bestsize)]. *)
Definition best : Type := nat * nat * nat.

(** The inner loop of [find_longest_match]:
    [for j in b2j.get(a[i], nothing)], with its [continue] below [blo]
    and its [break] from [bhi] on. [j2len.get(j-1, 0)] has no key [-1]. *)
Fixpoint longest_inner (js : list nat) (j2len newj2len : gmap nat nat)
    (i blo bhi : nat) (bst : best) : gmap nat nat * best :=
  match js with
  | [] => (newj2len, bst)
  | j :: js' =>
      if bool_decide (j < blo) then longest_inner js' j2len newj2len i blo bhi bst
      else if bool_decide (bhi ≤ j) then (newj2len, bst)
      else
        let k := (match j with 0 => 0 | S j' => default 0 (j2len !! j') end) + 1 in
        let bst' := if bool_decide (bst.2 < k) then (i + 1 - k, j + 1 - k, k) else bst in
        longest_inner js' j2len (<[j := k]> newj2len) i blo bhi bst'
  end.

(** The outer loop, [for i in range(alo, ahi)]. *)
Definition longest_outer (a : list A) (b2j : gmap A (list nat)) (blo bhi : nat)
    (st : gmap nat nat * best) (i : nat) : gmap nat nat * best :=
  let js := match a !! i with
            | Some x => default [] (b2j !! x)
            | None => []
            end in
  longest_inner js st.1 ∅ i blo bhi st.2.

(** [while besti > alo and bestj > blo and (isbjunk(b[bestj-1]) is junk)
    and a[besti-1] == b[bestj-1]]: the match grows to the left. *)
Fixpoint extend_left (junk : bool) (a b : list A) (alo blo : nat)
    (besti bestj bestsize : nat) : best :=
  match besti, bestj with
  | S i', S j' =>
      if bool_decide (alo < besti) && bool_decide (blo < bestj)
         && bool_decide (junk_at b j' = junk) && same_at a b i' j'
      then extend_left junk a b alo blo i' j' (S bestsize)
      else (besti, bestj, bestsize)
  | _, _ => (besti, bestj, bestsize)
  end.

(** [while besti+bestsize < ahi and bestj+bestsize < bhi and ...]: the
    match grows to the right; [room] is [ahi - (besti + bestsize)], which
    is [0] exactly when the first guard fails. *)
Fixpoint extend_right (room : nat) (junk : bool) (a b : list A) (bhi : nat)
    (besti bestj bestsize : nat) : nat :=
  match room with
  | 0 => bestsize
  | S room' =>
      if bool_decide (bestj + bestsize < bhi)
         && bool_decide (junk_at b (bestj + bestsize) = junk)
         && same_at a b (besti + bestsize) (bestj + bestsize)
      then extend_right room' junk a b bhi besti bestj (S bestsize)
      else bestsize
  end.

Definition extend (junk : bool) (a b : list A) (alo ahi blo bhi : nat) (bst : best) : best :=
  let '(besti, bestj, bestsize) := bst in
  let '(besti, bestj, bestsize) := extend_left junk a b alo blo besti bestj bestsize in
  (besti, bestj,
   extend_right (ahi - (besti + bestsize)) junk a b bhi besti bestj bestsize).

(** [find_longest_match(alo, ahi, blo, bhi)] *)
Definition find_longest_match (a b : list A) (b2j : gmap A (list nat))
    (alo ahi blo bhi : nat) : Match :=
  let st := foldl (longest_outer a b2j blo bhi) (∅, (alo, blo, 0)) (seq alo (ahi - alo)) in
  extend true a b alo ahi blo bhi (extend false a b alo ahi blo bhi st.2).

(** The loop of [get_matching_blocks]: [queue] is a Python list used as
    a stack, its last element first here. Every turn pops one region;
    [None] when [fuel] turns did not empty the queue. *)
Definition region : Type := nat * nat * nat * nat.

Fixpoint matching_loop (fuel : nat) (a b : list A) (b2j : gmap A (list nat))
    (queue : list region) (matching_blocks : list Match) : option (list Match) :=
  match queue with
  | [] => Some matching_blocks
  | (alo, ahi, blo, bhi) :: queue =>
      match fuel with
      | 0 => None
      | S fuel =>
          let '(i, j, k) := find_longest_match a b b2j alo ahi blo bhi in
          if bool_decide (k ≠ 0) then
            let queue := if bool_decide (alo < i ∧ blo < j)
                         then (alo, i, blo, j) :: queue else queue in
            let queue := if bool_decide (i + k < ahi ∧ j + k < bhi)
                         then (i + k, ahi, j + k, bhi) :: queue else queue in
            matching_loop fuel a b b2j queue (matching_blocks ++ [(i, j, k)])
          else matching_loop fuel a b b2j queue matching_blocks
      end
  end.

(** The order of Python tuples of three integers, for [matching_blocks.sort()]. *)
Definition Match_le (x y : Match) : Prop :=
  let '(i1, j1, k1) := x in
  let '(i2, j2, k2) := y in
  i1 < i2 ∨ (i1 = i2 ∧ (j1 < j2 ∨ (j1 = j2 ∧ k1 ≤ k2))).

#[global] Instance Match_le_dec : RelDecision Match_le.
Proof. intros [[i1 j1] k1] [[i2 j2] k2]. unfold Match_le. apply _. Defined.

(** The pass that collapses adjacent blocks; the state is the block
    [(i1, j1, k1)] being grown and [non_adjacent]. *)
Definition collapse_step (st : Match * list Match) (x : Match) : Match * list Match :=
  let '((i1, j1, k1), non_adjacent) := st in
  let '(i2, j2, k2) := x in
  if bool_decide (i1 + k1 = i2 ∧ j1 + k1 = j2) then ((i1, j1, k1 + k2), non_adjacent)
  else ((i2, j2, k2),
        if bool_decide (k1 ≠ 0) then non_adjacent ++ [(i1, j1, k1)] else non_adjacent).

Definition collapse (la lb : nat) (matching_blocks : list Match) : list Match :=
  let '((i1, j1, k1), non_adjacent) := foldl collapse_step ((0, 0, 0), []) matching_blocks in
  let non_adjacent :=
    if bool_decide (k1 ≠ 0) then non_adjacent ++ [(i1, j1, k1)] else non_adjacent in
  non_adjacent ++ [(la, lb, 0)].

(** [get_matching_blocks()], for [set_seq1(a)] and [set_seq2(b)]. The
    fuel [2 * len(a) + 1] always suffices ([matching_loop_enough]). *)
Definition get_matching_blocks_opt (a b : list A) : option (list Match) :=
  blocks ← matching_loop (2 * length a + 1) a b (chain_b b) [(0, length a, 0, length b)] [];
  Some (collapse (length a) (length b) (merge_sort Match_le blocks)).

Definition get_matching_blocks (a b : list A) : list Match :=
  default [] (get_matching_blocks_opt a b).

(** [ratio()] *)
Definition ratio (a b : list A) : Q :=
  let matches := sum_list_with (λ triple : Match, triple.2) (get_matching_blocks a b) in
  calculate_ratio matches (length a + length b).

(** [quick_ratio()]: [fullbcount] counts the occurrences in [b];
    [avail] may go below zero. *)
Definition fullbcount (b : list A) : gmap A Z :=
  foldl (λ m elt, <[elt := (default 0 (m !! elt) + 1)%Z]> m) ∅ b.

Definition quick_step (full : gmap A Z) (st : gmap A Z * nat) (elt : A) : gmap A Z * nat :=
  let '(avail, matches) := st in
  let numb := match avail !! elt with
              | Some n => n
              | None => default 0%Z (full !! elt)
              end in
  (<[elt := (numb - 1)%Z]> avail,
   if bool_decide (0 < numb)%Z then matches + 1 else matches).

Definition quick_ratio (a b : list A) : Q :=
  let matches := (foldl (quick_step (fullbcount b)) (∅, 0) a).2 in
  calculate_ratio matches (length a + length b).

(** [real_quick_ratio()] *)
Definition real_quick_ratio (a b : list A) : Q :=
  calculate_ratio (length a `min` length b) (length a + length b).

End SequenceMatcher.

(** *** Notions for the properties of the matcher *)

Section matcher_notions.
Context `{Countable A}.
Implicit Types (a b : list A) (b2j : gmap A (list nat)).

(** [a[i:i+k] == b[j:j+k]], all indices in range *)
Definition matches_at a b (i j k : nat) : Prop :=
  ∀ t, t < k → ∃ x, a !! (i + t) = Some x ∧ b !! (j + t) = Some x.

(** Every index that [b2j] lists for [x] holds [x] in [b]. *)
Definition b2j_sound b b2j : Prop :=
  ∀ x js j, b2j !! x = Some js → j ∈ js → b !! j = Some x.

(** [j2len[j]] when row [i] starts: the length of a match that ends
    with [a[i-1]] and [b[j]]. *)
Definition j2len_ok a b (alo blo bhi i : nat) (j2len : gmap nat nat) : Prop :=
  ∀ j v, j2len !! j = Some v →
    1 ≤ v ∧ v ≤ i - alo ∧ v ≤ j + 1 - blo ∧ j < bhi ∧ matches_at a b (i - v) (j + 1 - v) v.

Definition best_ok a b (alo blo bhi i : nat) (bst : best) : Prop :=
  let '(besti, bestj, bestsize) := bst in
  alo ≤ besti ∧ besti + bestsize ≤ i ∧ blo ≤ bestj ∧ bestj + bestsize ≤ bhi
  ∧ matches_at a b besti bestj bestsize.

(** A block [(i, j, k)] inside the region, with [a[i:i+k] == b[j:j+k]]. *)
Definition block_ok a b (r : region) (m : Match) : Prop :=
  let '(alo, ahi, blo, bhi) := r in
  let '(i, j, k) := m in
  alo ≤ i ∧ i + k ≤ ahi ∧ blo ≤ j ∧ j + k ≤ bhi ∧ matches_at a b i j k.

(** [l[lo:hi]] *)
Definition slice (l : list A) (lo hi : nat) : list A := take (hi - lo) (drop lo l).

(** The number of elements two sequences have in common, with multiplicity. *)
Definition common (x y : list A) : nat :=
  size (list_to_set_disj x ∩ list_to_set_disj y : gmultiset A).

Definition region_common a b (r : region) : nat :=
  let '(alo, ahi, blo, bhi) := r in common (slice a alo ahi) (slice b blo bhi).

Definition region_wf (r : region) : Prop :=
  let '(alo, ahi, blo, bhi) := r in alo ≤ ahi ∧ blo ≤ bhi.

(** The turns of the loop a region of the queue can still cost. *)
Definition region_weight (r : region) : nat :=
  let '(alo, ahi, blo, bhi) := r in 2 * (ahi - alo) + 1.

Definition sizes (blocks : list Match) : nat :=
  sum_list_with (λ triple : Match, triple.2) blocks.

(** A block with elements, inside the two sequences, that matches. *)
Definition real_block a b (m : Match) : Prop :=
  m.2 ≠ 0 ∧ block_ok a b (0, length a, 0, length b) m.

Definition region_inside a b (r : region) : Prop :=
  let '(alo, ahi, blo, bhi) := r in alo ≤ ahi ∧ ahi ≤ length a ∧ blo ≤ bhi ∧ bhi ≤ length b.

(** What [quick_ratio] reads for [x]: [avail[x]], or else [fullbcount.get(x, 0)]. *)
Definition numb_of (b : list A) (avail : gmap A Z) (x : A) : Z :=
  match avail !! x with
  | Some n => n
  | None => default 0%Z (fullbcount b !! x)
  end.

End matcher_notions.


(** The elements of a [str] are its characters. *)
Definition chars (s : string) : list Ascii.ascii := String.list_ascii_of_string s.

(** A scored candidate [(s.ratio(), x)], and the order [>] of Python
    tuples on them: the scores decide, equal scores leave it to the
    strings. *)
Definition scored : Type := Q * string.

Definition scored_gt (p q : scored) : bool :=
  if Qeq_bool p.1 q.1 then String.ltb q.2 p.2
  else negb (Qle_bool p.1 q.1).

(** [p > q] as a proposition. *)
Definition sgt (p q : scored) : Prop :=
  (q.1 < p.1)%Q ∨ ((p.1 == q.1)%Q ∧ String.ltb q.2 p.2 = true).

(** [max(it)]: the running maximum is replaced by a strictly greater item. *)
Definition max_from (m : scored) (l : list scored) : scored :=
  foldl (λ m x, if scored_gt x m then x else m) m l.

(** [heapq.nlargest(1, result)]: for [n == 1] it is [max], or nothing
    for an empty [result]. *)
Definition nlargest (result : list scored) : list scored :=
  match result with
  | [] => []
  | x :: rest => [max_from x rest]
  end.

#[global] Instance Qle_decision (x y : Q) : Decision (x <= y)%Q :=
  match Qlt_le_dec y x with
  | left Hlt => right (Qlt_not_le _ _ Hlt)
  | right Hle => left Hle
  end.

(** [(s.ratio(), x)] for the candidate [x] of [word]. *)
Definition score (word x : string) : scored := (ratio (chars x) (chars word), x).

(** The test of a candidate [x] ([seq1]) against [word] ([seq2]). *)
Definition close_enough (cutoff : Q) (word x : string) : bool :=
  Qle_bool cutoff (real_quick_ratio (chars x) (chars word))
  && Qle_bool cutoff (quick_ratio (chars x) (chars word))
  && Qle_bool cutoff (ratio (chars x) (chars word)).

(** [get_close_matches(word, possibilities, n=1, cutoff)], for a
    [cutoff] between 0 and 1 *)
Definition get_close_matches (word : string) (possibilities : list string) (cutoff : Q)
    : list string :=
  let result := score word <$> filter (λ x, close_enough cutoff word x) possibilities in
  snd <$> nlargest result.

End difflib.

(** ** The script *)

Module dashboard.

(** *** The table *)

(** A cell of a text column: [None] when the field is missing. *)
Definition cell : Type := option string.

Section table.
(** The cells of the remaining columns (ages, weights, heights, ...), and
    the floating-point expression
    [Mothers_weight_kg / ((Mothers_height_cm / 100) ** 2)] on two cells,
    a missing cell being [None]. *)
Context {V : Type}.
Variable mother_bmi : option V → option V → option V.

(** A row of [df]: the three columns the script compares with strings,
    and the cells of the other columns by column name, a missing cell
    having no entry. [State] holds strings: [difflib] raises on
    anything else (line 54). *)
Record Row : Type := mkRow {
  State : string;
  District : cell;
  Growth_status : cell;
  others : gmap string V;
}.

(** [df]: the names of the other columns ([df.columns]) and the rows. *)
Record DataFrame : Type := mkDataFrame {
  columns : list string;
  rows : list Row;
}.

(** *** Lines 34-35: the growth categories *)

Definition mal_types : list string := ["Stunted"; "Wasted"; "Underweight"].

Definition isin (values : list string) (c : cell) : bool :=
  match c with
  | Some s => bool_decide (s ∈ values)
  | None => false
  end.

(** [df = df[df["Growth_status"].isin(mal_types + ["Normal"])]] *)
Definition filter_growth (df : DataFrame) : DataFrame :=
  mkDataFrame (columns df)
    (filter (λ r, isin (mal_types ++ ["Normal"]) (Growth_status r)) (rows df)).

(** *** Lines 43-58: the names of the states *)

(** [csv_states = set(df["State"].unique())] *)
Definition csv_states (df : DataFrame) : list string :=
  remove_dups (State <$> rows df).

(** [mismatches = csv_states - geojson_states] *)
Definition mismatches (geojson_states : list string) (df : DataFrame) : list string :=
  filter (λ state, state ∉ geojson_states) (csv_states df).

Definition manual_fix : gmap string string := {["Odisha" := "Orissa"]}.

Definition cutoff : Q := 0.6.

(** The body of [for state in mismatches] *)
Definition fix_state (geojson_states : list string) (state_fix_map : gmap string string)
    (state : string) : gmap string string :=
  match manual_fix !! state with
  | Some fixed => <[state := fixed]> state_fix_map
  | None =>
      match difflib.get_close_matches state geojson_states cutoff with
      | match0 :: _ => <[state := match0]> state_fix_map
      | [] => state_fix_map
      end
  end.

Definition state_fix_map_of (geojson_states mismatches : list string) : gmap string string :=
  foldl (fix_state geojson_states) ∅ mismatches.

Definition state_fix_map (geojson_states : list string) (df : DataFrame) : gmap string string :=
  state_fix_map_of geojson_states (mismatches geojson_states df).

(** [Series.replace(d)] on one value: every value that is a key of [d]
    becomes its image, once. *)
Definition replace (d : gmap string string) (s : string) : string :=
  default s (d !! s).

Definition set_State (f : string → string) (r : Row) : Row :=
  mkRow (f (State r)) (District r) (Growth_status r) (others r).

Definition replace_State (d : gmap string string) (df : DataFrame) : DataFrame :=
  mkDataFrame (columns df) (set_State (replace d) <$> rows df).

(** [if state_fix_map: df["State"] = df["State"].replace(state_fix_map)] *)
Definition reconcile (geojson_states : list string) (df : DataFrame) : DataFrame :=
  let d := state_fix_map geojson_states df in
  if decide (d = ∅) then df else replace_State d df.

(** What the loop records for a mismatched name, if anything, and the
    name a state has after the run. *)
Definition fix_target (geojson_states : list string) (state : string) : option string :=
  match manual_fix !! state with
  | Some fixed => Some fixed
  | None => head (difflib.get_close_matches state geojson_states cutoff)
  end.

Definition reconciled (geojson_states : list string) (state : string) : string :=
  if decide (state ∈ geojson_states) then state
  else default state (fix_target geojson_states state).

(** [df] when the panels start. *)
Definition prepare (geojson_states : list string) (loaded : DataFrame) : DataFrame :=
  reconcile geojson_states (filter_growth loaded).

(** *** Lines 75-79: the aggregate of panel 1 *)

Inductive level : Type := ByState | ByDistrict.

(** [df[level]] *)
Definition level_of (lv : level) (r : Row) : cell :=
  match lv with
  | ByState => Some (State r)
  | ByDistrict => District r
  end.

Definition str_le (s1 s2 : string) : Prop := String.leb s1 s2.

Definition key_le (k1 k2 : string * string) : Prop :=
  String.ltb k1.1 k2.1 ∨ (k1.1 = k2.1 ∧ String.leb k1.2 k2.2).

#[global] Instance str_le_dec : RelDecision str_le.
Proof. intros s1 s2. unfold str_le. apply _. Defined.

#[global] Instance key_le_dec : RelDecision key_le.
Proof. intros k1 k2. unfold key_le. apply _. Defined.

(** [groupby(keys).size().reset_index(name=...)]: the rows with a
    missing key are left out; one line per key that is present, the
    keys in increasing order, with the number of rows of that key. *)
Definition occurrences `{EqDecision K} (keys : list K) (k : K) : nat :=
  length (filter (k =.) keys).

Definition groupby_size `{EqDecision K} (le : relation K) `{!RelDecision le}
    (keys : list K) : list (K * nat) :=
  (λ k, (k, occurrences keys k)) <$> merge_sort le (remove_dups keys).

(** The keys of the rows that have them. *)
Definition level_keys (lv : level) (df : DataFrame) : list string :=
  omap (level_of lv) (rows df).

Definition level_status_keys (lv : level) (df : DataFrame) : list (string * string) :=
  omap (λ r, g ← level_of lv r; s ← Growth_status r; Some (g, s)) (rows df).

(** [df.groupby([level, "Growth_status"]).size().reset_index(name="count")] *)
Definition count_table (lv : level) (df : DataFrame) : list (string * string * nat) :=
  groupby_size key_le (level_status_keys lv df).

(** [total = df.groupby(level).size().reset_index(name="total")] *)
Definition total (lv : level) (df : DataFrame) : list (string * nat) :=
  groupby_size str_le (level_keys lv df).

(** A line of [agg]. *)
Record AggRow : Type := mkAggRow {
  agg_level : string;
  agg_Growth_status : string;
  agg_count : nat;
  agg_total : nat;
  agg_percentage : Q;
}.

Definition Qnat (n : nat) : Q := inject_Z (Z.of_nat n).

(** [agg.merge(total, on=level)] and
    [agg["percentage"] = 100 * agg["count"] / agg["total"]] *)
Definition merge_line (totals : list (string * nat)) (line : string * string * nat)
    : list AggRow :=
  let '(g, s, c) := line in
  omap (λ gt : string * nat,
          if decide (gt.1 = g)
          then Some (mkAggRow g s c gt.2 (100 * Qnat c / Qnat gt.2)%Q)
          else None) totals.

Definition agg (lv : level) (df : DataFrame) : list AggRow :=
  count_table lv df ≫= merge_line (total lv df).

(** The line of [agg] that comes from a key of the first group-by. *)
Definition line_of (lv : level) (df : DataFrame) (k : string * string) : AggRow :=
  let c := occurrences (level_status_keys lv df) k in
  let t := occurrences (level_keys lv df) k.1 in
  mkAggRow k.1 k.2 c t (100 * Qnat c / Qnat t)%Q.

(** The lines of [agg] of one group, and the sum of a column of rationals. *)
Definition group_lines (g : string) (agg : list AggRow) : list AggRow :=
  filter (λ r, agg_level r = g) agg.

Definition Qsum (l : list Q) : Q := foldr Qplus 0%Q l.

(** *** Lines 81-98: the lines of one growth status *)

Definition pct_ge (r1 r2 : AggRow) : Prop :=
  Qle_bool (agg_percentage r2) (agg_percentage r1).

#[global] Instance pct_ge_dec : RelDecision pct_ge.
Proof. intros r1 r2. unfold pct_ge. apply _. Defined.

(** [agg[agg["Growth_status"] == mal_type].sort_values("percentage", ascending=False)].
    pandas does not fix the order of lines of equal percentage; here it
    is that of [merge_sort]. *)
Definition subset (mal_type : string) (agg : list AggRow) : list AggRow :=
  merge_sort pct_ge (filter (λ r, agg_Growth_status r = mal_type) agg).

Definition threshold : Q := 20.

(** [subset["highlight"] = subset["percentage"].apply(lambda x: x if x >= threshold else 0)] *)
Definition highlight (r : AggRow) : Q :=
  let x := agg_percentage r in
  if Qle_bool threshold x then x else 0%Q.

(** *** The panels

    A panel reads [df], draws, and may assign to [df]. What a chart is
    drawn from is recorded; the drawing itself is the plotting
    library's. *)
Inductive Chart : Type :=
  | bar (data : list AggRow)
  | choropleth (data : list (AggRow * Q))
  | drawn_from (title : string) (data : DataFrame).

Definition panel (X : Type) : Type := DataFrame → X * DataFrame.

#[global] Instance panel_ret : MRet panel := λ X x df, (x, df).
#[global] Instance panel_bind : MBind panel :=
  λ X Y f m df, let '(x, df') := m df in f x df'.

(** reading [df] *)
Definition read {X} (f : DataFrame → X) : panel X := λ df, (f df, df).
(** [df[name] = column], the cells of the column given row by row *)
Definition set_cell (name : string) (v : option V) (r : Row) : Row :=
  mkRow (State r) (District r) (Growth_status r) (partial_alter (λ _, v) name (others r)).
Definition assign (name : string) (f : Row → option V) : panel () :=
  λ df, (tt, mkDataFrame
               (if decide (name ∈ columns df) then columns df else columns df ++ [name])
               ((λ r, set_cell name (f r) r) <$> rows df)).

Definition tab1 (lv : level) (mal_type : string) : panel (list Chart) :=
  agg ← read (agg lv);
  let subset := subset mal_type agg in
  mret [bar (take 15 subset); choropleth ((λ r, (r, highlight r)) <$> subset)].

Definition tab2 : panel (list Chart) :=
  fig_age ← read (drawn_from "Age distribution of surveyed children");
  fig_sex ← read (drawn_from "Male vs Female Distribution");
  mret [fig_age; fig_sex].

Definition tab3 : panel (list Chart) :=
  fig_hw ← read (drawn_from "Average Height and Weight by Age");
  fig_muac ← read (drawn_from "MUAC Distribution (malnutrition severity)");
  mret [fig_hw; fig_muac].

Definition tab4 : panel (list Chart) :=
  fig_immun ← read (drawn_from "Immunization Coverage by State");
  fig_sup ← read (drawn_from "Supplementary Nutrition Coverage");
  mret [fig_immun; fig_sup].

Definition Mother_BMI (r : Row) : option V :=
  mother_bmi (others r !! "Mothers_weight_kg") (others r !! "Mothers_height_cm").

Definition tab5 : panel (list Chart) :=
  cols ← read columns;
  bmi ← (if decide ("Mothers_weight_kg" ∈ cols ∧ "Mothers_height_cm" ∈ cols)
         then (assign "Mother_BMI" Mother_BMI;;
               fig_bmi ← read (drawn_from "Mother BMI vs Child Growth Status");
               mret [fig_bmi])
         else mret []);
  cols ← read columns;
  anemia ← (if decide ("Maternal_anemia_status" ∈ cols)
            then (fig_anemia ← read (drawn_from "Maternal Anemia vs Child Growth Status");
                  mret [fig_anemia])
            else mret []);
  mret (bmi ++ anemia).

(** The five panels, in the order of the script. *)
Definition panels (lv : level) (mal_type : string) : panel (list Chart) :=
  c1 ← tab1 lv mal_type;
  c2 ← tab2;
  c3 ← tab3;
  c4 ← tab4;
  c5 ← tab5;
  mret (c1 ++ c2 ++ c3 ++ c4 ++ c5).

Definition maternal_columns (df : DataFrame) : Prop :=
  "Mothers_weight_kg" ∈ columns df ∧ "Mothers_height_cm" ∈ columns df.

(** *** The words of the specification

    Two notions the specification uses and the script does not: a
    similarity that ignores case, and a tie between candidates broken
    by the iteration order. *)

(** Lower case, for the letters [A]-[Z]. *)
Definition lower_char (c : Ascii.ascii) : Ascii.ascii :=
  let n := Ascii.nat_of_ascii c in
  if bool_decide (65 ≤ n ∧ n ≤ 90) then Ascii.ascii_of_nat (n + 32) else c.

Fixpoint lower (s : string) : string :=
  match s with
  | EmptyString => EmptyString
  | String c s' => String (lower_char c) (lower s')
  end.

Definition spec_similarity (word x : string) : Q :=
  difflib.ratio (difflib.chars (lower x)) (difflib.chars (lower word)).

(** Of the candidates that pass the threshold, the first one in
    iteration order whose score no other one exceeds. *)
Definition spec_first_best (word : string) (geojson_states : list string) : option string :=
  foldl (λ best x,
           let score_x := difflib.ratio (difflib.chars x) (difflib.chars word) in
           if Qle_bool cutoff score_x then
             match best with
             | Some y =>
                 if Qle_bool score_x (difflib.ratio (difflib.chars y) (difflib.chars word))
                 then Some y else Some x
             | None => Some x
             end
           else best) None geojson_states.

(** No existing row or column is changed: every row of [df] is at its
    place in [df'] with its three text cells and its cell of every
    column that [df] has. *)
Definition spec_existing_kept (df df' : DataFrame) : Prop :=
  ∀ i r, rows df !! i = Some r →
    ∃ r', rows df' !! i = Some r'
          ∧ State r' = State r ∧ District r' = District r
          ∧ Growth_status r' = Growth_status r
          ∧ ∀ name, name ∈ columns df → others r' !! name = others r !! name.

(** *** Tables to run the script on *)

(** One row for each of the given states. *)
Definition table_of (states : list string) : DataFrame :=
  mkDataFrame [] ((λ s, mkRow s None (Some "Stunted") ∅) <$> states).

Definition child (state district status : string) : Row :=
  mkRow state (Some district) (Some status) ∅.

Definition survey : DataFrame :=
  mkDataFrame []
    [child "Odisha" "Puri" "Stunted"; child "Kerala" "Idukki" "Stunted";
     child "Odisha" "Puri" "Normal"; child "Odisha" "Cuttack" "Stunted";
     child "KERALA" "Idukki" "Obese"; child "Keralaa" "Idukki" "Wasted"].

Definition boundary_names : list string := ["Kerala"; "Orissa"; "Goa"].

(** Ten rows of ["Odisha"] and five of ["Kerala"], all ["Stunted"]. *)
Definition ten_and_five : DataFrame :=
  mkDataFrame []
    (replicate 10 (child "Odisha" "Puri" "Stunted")
     ++ replicate 5 (child "Kerala" "Idukki" "Stunted")).

(** *** Lines 35-58 on the table as it is loaded

    In the table that [read_csv] gives, a [State] may be missing (NaN).
    NaN is no canonical name and no key of [manual_fix]: the loop of
    line 50 hands it to [get_close_matches], which raises [TypeError]
    on it, as on every value that is not a [str] (line 54). A cell of
    the [State] column is a [cell] here, [None] standing for such a
    value, and [None] as a result is that exception. The table has the
    columns [State] and [Growth_status]. *)
Record LoadedRow : Type := mkLoadedRow {
  loaded_State : cell;
  loaded_District : cell;
  loaded_Growth_status : cell;
  loaded_others : gmap string V;
}.

Record Loaded : Type := mkLoaded {
  loaded_columns : list string;
  loaded_rows : list LoadedRow;
}.

(** Line 35 *)
Definition filter_loaded (t : Loaded) : Loaded :=
  mkLoaded (loaded_columns t)
    (filter (λ l, isin (mal_types ++ ["Normal"]) (loaded_Growth_status l)) (loaded_rows t)).

(** A row whose [State] is a [str]. *)
Definition with_state (l : LoadedRow) : option Row :=
  state ← loaded_State l;
  Some (mkRow state (loaded_District l) (loaded_Growth_status l) (loaded_others l)).

(** Lines 46-58 *)
Definition rename_loaded (geojson_states : list string) (t : Loaded) : option DataFrame :=
  rows ← mapM with_state (loaded_rows t);
  Some (reconcile geojson_states (mkDataFrame (loaded_columns t) rows)).

(** Lines 35-58, in the order of the script. *)
Definition prepare_loaded (geojson_states : list string) (t : Loaded) : option DataFrame :=
  rename_loaded geojson_states (filter_loaded t).

(** Three rows as loaded; the second has no [State], and a growth
    status that line 35 does not keep. *)
Definition with_gap : Loaded :=
  mkLoaded []
    [mkLoadedRow (Some "Odisha") (Some "Puri") (Some "Stunted") ∅;
     mkLoadedRow None (Some "Idukki") (Some "Obese") ∅;
     mkLoadedRow (Some "Keralaa") (Some "Idukki") (Some "Wasted") ∅].

(** *** Line 106: the range of the colours *)

(** [subset["percentage"].max()]: nothing for a table without lines. *)
Definition max_percentage (subset : list AggRow) : option Q :=
  match subset with
  | [] => None
  | r :: rest =>
      Some (foldl (λ m r', if Qle_bool m (agg_percentage r') then agg_percentage r' else m)
              (agg_percentage r) rest)
  end.

(** *** Lines 162 and 167: the counts of panel 4 *)

Section program_reach.
Context `{EqDecision V} (V_le : relation V) `{!RelDecision V_le}.

(** The order of the keys [(State, value)], [V_le] being the order of
    the values of the column. *)
Definition state_value_le (k1 k2 : string * V) : Prop :=
  String.ltb k1.1 k2.1 ∨ (k1.1 = k2.1 ∧ V_le k1.2 k2.2).

#[global] Instance state_value_le_dec : RelDecision state_value_le.
Proof. intros k1 k2. unfold state_value_le. apply _. Defined.

Definition state_value_keys (column : string) (df : DataFrame) : list (string * V) :=
  omap (λ r, v ← others r !! column; Some (State r, v)) (rows df).

(** [df.groupby(["State", column]).size().reset_index(name="count")] *)
Definition coverage (column : string) (df : DataFrame) : list (string * V * nat) :=
  groupby_size state_value_le (state_value_keys column df).

Definition immun (df : DataFrame) : list (string * V * nat) :=
  coverage "Immunization_status" df.

Definition sup (df : DataFrame) : list (string * V * nat) :=
  coverage "Supplementary_nutrition_received" df.

End program_reach.

End table.

(** *** A table with measurements *)

(** [Mothers_weight_kg / ((Mothers_height_cm / 100) ** 2)] on exact
    rationals, for heights other than 0; a missing cell gives a
    missing cell. *)
Definition mother_bmi_Q (weight height : option Q) : option Q :=
  match weight, height with
  | Some w, Some h => Some (w / ((h / 100) ^ 2))%Q
  | _, _ => None
  end.

(** A file that has the two maternal columns and a [Mother_BMI] column
    of its own: a mother of 64 kg and 160 cm, recorded with a BMI of
    22. *)
Definition measured : DataFrame (V:=Q) :=
  mkDataFrame ["Mothers_weight_kg"; "Mothers_height_cm"; "Mother_BMI"]
    [mkRow "Kerala" (Some "Idukki") (Some "Stunted")
       {[ "Mothers_weight_kg" := 64%Q; "Mothers_height_cm" := 160%Q;
          "Mother_BMI" := 22%Q ]}].

End dashboard.

Import difflib dashboard.

(** * The matcher *)

Section matcher_facts.
Context `{Countable A}.
Implicit Types (a b : list A) (b2j : gmap A (list nat)).

Lemma matches_at_0 a b i j : matches_at a b i j 0.
Proof. intros t Ht. lia. Qed.

Lemma matches_at_snoc a b i j k x :
  matches_at a b i j k → a !! (i + k) = Some x → b !! (j + k) = Some x →
  matches_at a b i j (S k).
Proof.
  intros Hm Ha Hb t Ht. destruct (decide (t = k)) as [->|]; [eauto|].
  apply Hm. lia.
Qed.

Lemma matches_at_cons a b i j k x :
  matches_at a b (S i) (S j) k → a !! i = Some x → b !! j = Some x →
  matches_at a b i j (S k).
Proof.
  intros Hm Ha Hb [|t] Ht.
  - rewrite !Nat.add_0_r. eauto.
  - destruct (Hm t) as (y & ? & ?); [lia|]. exists y.
    by rewrite <- !Nat.add_succ_comm.
Qed.

Lemma same_at_Some a b i j :
  same_at a b i j = true → ∃ x, a !! i = Some x ∧ b !! j = Some x.
Proof.
  unfold same_at. destruct (a !! i) as [x|], (b !! j) as [y|]; try done.
  intros ->%bool_decide_eq_true. eauto.
Qed.

(** ** [__chain_b] *)

Lemma chain_b_fold_sound b (l : list (nat * A)) b2j :
  (∀ i x, (i, x) ∈ l → b !! i = Some x) → b2j_sound b b2j →
  b2j_sound b (foldl chain_b_index b2j l).
Proof.
  revert b2j. induction l as [|[i x] l IH]; intros b2j Hl Hs; [done|].
  simpl. apply IH; [intros; apply Hl; by right|].
  intros y js j. unfold chain_b_index. simpl.
  destruct (decide (x = y)) as [->|Hne].
  - rewrite lookup_insert_eq. intros [= <-]. rewrite elem_of_app, list_elem_of_singleton.
    intros [Hj| ->]; [|apply Hl; left].
    destruct (b2j !! y) as [js|] eqn:Hjs; simpl in Hj; [by eapply Hs|].
    by apply not_elem_of_nil in Hj.
  - rewrite lookup_insert_ne by done. apply Hs.
Qed.

Lemma chain_b_sound b : b2j_sound b (chain_b b).
Proof.
  assert (Hs : b2j_sound b (foldl chain_b_index ∅ (imap pair b))).
  { apply chain_b_fold_sound; [|intros x js j; by rewrite lookup_empty].
    intros i x Hix. apply elem_of_lookup_imap in Hix as (i' & x' & [= -> ->] & Hb). done. }
  unfold chain_b. case_bool_decide; [|done].
  intros x js j Hjs. apply map_lookup_filter_Some in Hjs as [Hjs _]. by eapply Hs.
Qed.


(** ** [find_longest_match] *)

Section longest.
Variables (a b : list A) (alo blo bhi : nat).

Lemma best_ok_mono i i' bst : i ≤ i' → best_ok a b alo blo bhi i bst → best_ok a b alo blo bhi i' bst.
Proof. destruct bst as [[bi bj] bs]. unfold best_ok. intros ? (?&?&?&?&?). repeat split; [..|done]; lia. Qed.

Lemma matches_at_1 i j x :
  a !! i = Some x → b !! j = Some x → matches_at a b i j 1.
Proof.
  intros Ha Hb t Ht. assert (t = 0) as -> by lia. rewrite !Nat.add_0_r. eauto.
Qed.

Lemma longest_k_ok j2len i j x :
  alo ≤ i → blo ≤ j → j < bhi → a !! i = Some x → b !! j = Some x →
  j2len_ok a b alo blo bhi i j2len →
  ∀ k, k = (match j with 0 => 0 | S j' => default 0 (j2len !! j') end) + 1 →
  1 ≤ k ∧ k ≤ S i - alo ∧ k ≤ j + 1 - blo ∧ matches_at a b (S i - k) (j + 1 - k) k.
Proof.
  intros Hi Hlo Hhi Ha Hb Hold k Hk.
  assert (Hone : k = 1 →
    1 ≤ k ∧ k ≤ S i - alo ∧ k ≤ j + 1 - blo ∧ matches_at a b (S i - k) (j + 1 - k) k).
  { intros ->. repeat split; [lia..|].
    apply matches_at_1 with x.
    - by replace (S i - 1) with i by lia.
    - by replace (j + 1 - 1) with j by lia. }
  destruct j as [|j']; [by apply Hone|].
  destruct (j2len !! j') as [v|] eqn:Hv; simpl in Hk; [|by apply Hone].
  destruct (Hold _ _ Hv) as (?&?&?&?&Hm). subst k.
  repeat split; [lia..|].
  replace (S i - (v + 1)) with (i - v) by lia.
  replace (S j' + 1 - (v + 1)) with (j' + 1 - v) by lia.
  replace (v + 1) with (S v) by lia.
  apply matches_at_snoc with x; [done|..].
  - by replace (i - v + v) with i by lia.
  - by replace (j' + 1 - v + v) with (S j') by lia.
Qed.

Lemma longest_inner_ok js j2len newj2len i x bst :
  alo ≤ i → a !! i = Some x → (∀ j, j ∈ js → b !! j = Some x) →
  j2len_ok a b alo blo bhi i j2len → j2len_ok a b alo blo bhi (S i) newj2len → best_ok a b alo blo bhi (S i) bst →
  j2len_ok a b alo blo bhi (S i) (longest_inner js j2len newj2len i blo bhi bst).1
  ∧ best_ok a b alo blo bhi (S i) (longest_inner js j2len newj2len i blo bhi bst).2.
Proof.
  intros Hi Ha. revert newj2len bst.
  induction js as [|j js IH]; intros newj2len bst Hjs Hold Hnew Hbst; [done|].
  simpl. case_bool_decide as Hlo; [apply IH; auto; intros; apply Hjs; by right|].
  case_bool_decide as Hhi; [done|].
  destruct (longest_k_ok j2len i j x) with
    (k := (match j with 0 => 0 | S j' => default 0 (j2len !! j') end) + 1)
    as (Hk1 & Hk2 & Hk3 & Hkm); [lia|lia|lia|done|apply Hjs; left|done|done|].
  apply IH; [intros; apply Hjs; by right|done|..].
  - intros j0 v0. destruct (decide (j = j0)) as [->|].
    + rewrite lookup_insert_eq. intros [= <-]. repeat split; [lia..|done].
    + rewrite lookup_insert_ne by done. apply Hnew.
  - case_bool_decide; [|done]. unfold best_ok.
    repeat split; [lia..|].
    by replace (i + 1 - _) with (S i - (match j with 0 => 0 | S j' => default 0 (j2len !! j') end + 1)) by lia.
Qed.

Lemma longest_outer_ok b2j st i :
  b2j_sound b b2j → alo ≤ i →
  j2len_ok a b alo blo bhi i st.1 → best_ok a b alo blo bhi i st.2 →
  j2len_ok a b alo blo bhi (S i) (longest_outer a b2j blo bhi st i).1
  ∧ best_ok a b alo blo bhi (S i) (longest_outer a b2j blo bhi st i).2.
Proof.
  intros Hs Hi Hj Hb. unfold longest_outer.
  assert (Hempty : j2len_ok a b alo blo bhi (S i) ∅) by (intros j v; by rewrite lookup_empty).
  assert (Hb' : best_ok a b alo blo bhi (S i) st.2) by (eapply best_ok_mono; [|done]; lia).
  destruct (a !! i) as [x|] eqn:Ha; [|done].
  apply longest_inner_ok with x; try done.
  intros j Hjs. destruct (b2j !! x) as [js|] eqn:Hx; simpl in Hjs; [by eapply Hs|].
  by apply not_elem_of_nil in Hjs.
Qed.

Lemma longest_fold_ok b2j st n i :
  b2j_sound b b2j → alo ≤ i →
  j2len_ok a b alo blo bhi i st.1 → best_ok a b alo blo bhi i st.2 →
  j2len_ok a b alo blo bhi (i + n) (foldl (longest_outer a b2j blo bhi) st (seq i n)).1
  ∧ best_ok a b alo blo bhi (i + n) (foldl (longest_outer a b2j blo bhi) st (seq i n)).2.
Proof.
  intros Hs. revert st i. induction n as [|n IH]; intros st i Hi Hj Hb.
  - rewrite Nat.add_0_r. done.
  - simpl. replace (i + S n) with (S i + n) by lia.
    destruct (longest_outer_ok b2j st i) as [??]; [done..|].
    apply IH; [lia|done..].
Qed.
End longest.


Lemma extend_left_ok junk a b alo ahi blo bhi besti bestj bestsize :
  block_ok a b (alo, ahi, blo, bhi) (besti, bestj, bestsize) →
  block_ok a b (alo, ahi, blo, bhi) (extend_left junk a b alo blo besti bestj bestsize).
Proof.
  revert bestj bestsize. induction besti as [|i' IH]; intros bestj bestsize Hok; [done|].
  destruct bestj as [|j']; [done|]. simpl.
  destruct (_ && _) eqn:Hc; [|done].
  apply andb_prop in Hc as [[[Hi Hj]%andb_prop _]%andb_prop Hs].
  apply bool_decide_eq_true in Hi, Hj.
  apply same_at_Some in Hs as (x & Ha & Hb).
  destruct Hok as (?&?&?&?&Hm).
  apply IH. repeat split; [lia..|]. by apply matches_at_cons with x.
Qed.

Lemma extend_right_ok room junk a b alo ahi blo bhi besti bestj bestsize :
  besti + bestsize + room ≤ ahi →
  block_ok a b (alo, ahi, blo, bhi) (besti, bestj, bestsize) →
  block_ok a b (alo, ahi, blo, bhi)
    (besti, bestj, extend_right room junk a b bhi besti bestj bestsize).
Proof.
  revert bestsize. induction room as [|room IH]; intros bestsize Hroom Hok; [done|].
  simpl. destruct (_ && _) eqn:Hc; [|done].
  apply andb_prop in Hc as [[Hj _]%andb_prop Hs].
  apply bool_decide_eq_true in Hj.
  apply same_at_Some in Hs as (x & Ha & Hb).
  destruct Hok as (?&?&?&?&Hm).
  apply IH; [lia|]. repeat split; [lia..|]. by apply matches_at_snoc with x.
Qed.

Lemma extend_ok junk a b alo ahi blo bhi bst :
  block_ok a b (alo, ahi, blo, bhi) bst →
  block_ok a b (alo, ahi, blo, bhi) (extend junk a b alo ahi blo bhi bst).
Proof.
  destruct bst as [[besti bestj] bestsize]. intros Hok. unfold extend.
  pose proof (extend_left_ok junk _ _ _ _ _ _ _ _ _ Hok) as Hl.
  destruct (extend_left _ _ _ _ _ _ _ _) as [[i j] k].
  apply extend_right_ok; [|done]. destruct Hl as (?&?&_). lia.
Qed.

(** [find_longest_match] returns a block of the region that matches. *)
Lemma find_longest_match_ok a b b2j alo ahi blo bhi :
  b2j_sound b b2j → alo ≤ ahi → blo ≤ bhi →
  block_ok a b (alo, ahi, blo, bhi) (find_longest_match a b b2j alo ahi blo bhi).
Proof.
  intros Hs Ha Hb. unfold find_longest_match.
  do 2 apply extend_ok.
  destruct (longest_fold_ok a b alo blo bhi b2j (∅, (alo, blo, 0)) (ahi - alo) alo)
    as [_ Hbest]; [done|done|..].
  - intros j v. simpl. by rewrite lookup_empty.
  - simpl. repeat split; [lia..|]. apply matches_at_0.
  - replace (alo + (ahi - alo)) with ahi in Hbest by lia.
    destruct (foldl _ _ _).2 as [[i j] k]. done.
Qed.


(** ** [get_matching_blocks] *)

Lemma slice_app (l : list A) lo mid hi :
  lo ≤ mid → mid ≤ hi → slice l lo hi = slice l lo mid ++ slice l mid hi.
Proof.
  intros ??. unfold slice.
  replace (drop mid l) with (drop (mid - lo) (drop lo l)) by (rewrite drop_drop; f_equal; lia).
  rewrite take_take_drop. f_equal. lia.
Qed.

Lemma slice_matches a b i j k :
  matches_at a b i j k → slice a i (i + k) = slice b j (j + k).
Proof.
  intros Hm. unfold slice. apply list_eq. intros t.
  replace (i + k - i) with k by lia. replace (j + k - j) with k by lia.
  destruct (decide (t < k)) as [Ht|Ht].
  - rewrite !lookup_take_lt, !lookup_drop by done.
    destruct (Hm t Ht) as (x & -> & ->). done.
  - rewrite !lookup_take_ge by lia. done.
Qed.

Lemma slice_matches_length a b i j k :
  matches_at a b i j k → length (slice a i (i + k)) = k.
Proof.
  intros Hm. unfold slice. rewrite length_take, length_drop.
  replace (i + k - i) with k by lia.
  destruct k as [|k]; [lia|].
  destruct (Hm k) as (x & Ha & _); [lia|]. apply lookup_lt_Some in Ha. lia.
Qed.

Lemma size_list_to_set_disj (l : list A) :
  size (list_to_set_disj l : gmultiset A) = length l.
Proof.
  induction l as [|x l IH]; [done|].
  rewrite list_to_set_disj_cons, gmultiset_size_disj_union, gmultiset_size_singleton, IH.
  done.
Qed.

Lemma common_split (x1 x2 y1 y2 m : list A) :
  common x1 y1 + length m + common x2 y2 ≤ common (x1 ++ m ++ x2) (y1 ++ m ++ y2).
Proof.
  unfold common. rewrite !list_to_set_disj_app.
  rewrite <- (size_list_to_set_disj m), <- !gmultiset_size_disj_union.
  apply gmultiset_subseteq_size. multiset_solver.
Qed.

(** What is left of a region around a block has at most as much in
    common as the region, less the block. *)
Lemma block_common a b alo ahi blo bhi i j k :
  block_ok a b (alo, ahi, blo, bhi) (i, j, k) →
  region_common a b (alo, i, blo, j) + k + region_common a b (i + k, ahi, j + k, bhi)
  ≤ region_common a b (alo, ahi, blo, bhi).
Proof.
  intros (?&?&?&?&Hm). unfold region_common.
  rewrite (slice_app a alo i ahi), (slice_app a i (i + k) ahi) by lia.
  rewrite (slice_app b blo j bhi), (slice_app b j (j + k) bhi) by lia.
  rewrite <- (slice_matches a b i j k Hm).
  pose proof (common_split (slice a alo i) (slice a (i + k) ahi)
                (slice b blo j) (slice b (j + k) bhi) (slice a i (i + k))) as Hc.
  by rewrite (slice_matches_length a b i j k Hm) in Hc.
Qed.

Lemma matching_loop_ok a b b2j C fuel queue blocks :
  b2j_sound b b2j →
  Forall region_wf queue →
  sum_list_with region_weight queue ≤ fuel →
  sizes blocks + sum_list_with (region_common a b) queue ≤ C →
  ∃ blocks', matching_loop fuel a b b2j queue blocks = Some blocks' ∧ sizes blocks' ≤ C.
Proof.
  intros Hs. revert queue blocks.
  induction fuel as [|fuel IH]; intros queue blocks Hwf Hfuel HC.
  - destruct queue as [|[[[alo ahi] blo] bhi] queue]; [simpl in *; eexists; split; [done|lia]|].
    simpl in Hfuel. lia.
  - destruct queue as [|[[[alo ahi] blo] bhi] queue]; [simpl in *; eexists; split; [done|lia]|].
    apply Forall_cons in Hwf as [[Ha Hb] Hwf].
    cbn [sum_list_with] in *. unfold region_weight at 1 in Hfuel.
    cbn [matching_loop].
    pose proof (find_longest_match_ok a b b2j alo ahi blo bhi Hs Ha Hb) as Hok.
    destruct (find_longest_match a b b2j alo ahi blo bhi) as [[i j] k].
    pose proof (block_common _ _ _ _ _ _ _ _ _ Hok) as Hcommon.
    destruct Hok as (?&?&?&?&_).
    case_bool_decide as Hk; [|apply IH; [done|simpl in *; lia..]].
    apply IH.
    + repeat case_bool_decide; repeat constructor; try done; simpl; lia.
    + repeat case_bool_decide; simpl; lia.
    + unfold sizes in *. rewrite sum_list_with_app.
      repeat case_bool_decide; cbn [sum_list_with snd]; lia.
Qed.


Lemma collapse_fold_sizes (l : list Match) (st : Match * list Match) :
  (foldl collapse_step st l).1.2 + sizes (foldl collapse_step st l).2
  = st.1.2 + sizes st.2 + sizes l.
Proof.
  revert st. induction l as [|[[i2 j2] k2] l IH]; intros [[[i1 j1] k1] na]; [simpl; lia|].
  cbn [foldl]. rewrite IH. unfold collapse_step, sizes.
  repeat case_bool_decide; simpl; rewrite ?sum_list_with_app; simpl; lia.
Qed.

Lemma collapse_sizes la lb (blocks : list Match) :
  sizes (collapse la lb blocks) = sizes blocks.
Proof.
  unfold collapse. pose proof (collapse_fold_sizes blocks ((0, 0, 0), [])) as Hf.
  destruct (foldl collapse_step _ blocks) as [[[i1 j1] k1] na]. simpl in Hf.
  unfold sizes in *.
  case_bool_decide; rewrite ?sum_list_with_app; simpl; lia.
Qed.

Lemma slice_all (l : list A) : slice l 0 (length l) = l.
Proof. unfold slice. rewrite drop_0, Nat.sub_0_r. apply firstn_all. Qed.

(** The loop of [get_matching_blocks] ends within its fuel, and the
    blocks it returns cover no more than the two sequences have in
    common. *)
Lemma get_matching_blocks_opt_ok a b :
  ∃ blocks, get_matching_blocks_opt a b = Some blocks ∧ sizes blocks ≤ common a b.
Proof.
  unfold get_matching_blocks_opt.
  destruct (matching_loop_ok a b (chain_b b) (common a b) (2 * length a + 1)
              [(0, length a, 0, length b)] []) as (blocks & -> & Hsz).
  - apply chain_b_sound.
  - repeat constructor; lia.
  - simpl. lia.
  - simpl. rewrite !slice_all. unfold sizes. simpl. lia.
  - simpl. eexists. split; [done|].
    rewrite collapse_sizes. unfold sizes. by rewrite merge_sort_Permutation.
Qed.

Lemma get_matching_blocks_sizes a b : sizes (get_matching_blocks a b) ≤ common a b.
Proof.
  unfold get_matching_blocks.
  destruct (get_matching_blocks_opt_ok a b) as (blocks & -> & Hsz). done.
Qed.

(** ** [quick_ratio] and [real_quick_ratio] *)

Lemma fullbcount_fold (b : list A) (m : gmap A Z) (B0 : gmultiset A) :
  (∀ x, default 0%Z (m !! x) = Z.of_nat (multiplicity x B0)) →
  ∀ x, default 0%Z (foldl (λ m elt, <[elt := (default 0 (m !! elt) + 1)%Z]> m) m b !! x)
       = Z.of_nat (multiplicity x (B0 ⊎ list_to_set_disj b)).
Proof.
  revert m B0. induction b as [|e b IH]; intros m B0 Hm x.
  - cbn [foldl]. rewrite Hm, list_to_set_disj_nil, multiplicity_disj_union, multiplicity_empty. lia.
  - cbn [foldl]. rewrite (IH _ (B0 ⊎ {[+ e +]})).
    + rewrite list_to_set_disj_cons, !multiplicity_disj_union. lia.
    + intros y. destruct (decide (e = y)) as [->|].
      * rewrite lookup_insert_eq, Hm. simpl.
        rewrite multiplicity_disj_union, multiplicity_singleton_eq. lia.
      * rewrite lookup_insert_ne, Hm by done.
        rewrite multiplicity_disj_union, multiplicity_singleton_ne by done. lia.
Qed.

Lemma fullbcount_multiplicity (b : list A) x :
  default 0%Z (fullbcount b !! x) = Z.of_nat (multiplicity x (list_to_set_disj b : gmultiset A)).
Proof.
  unfold fullbcount. rewrite (fullbcount_fold b ∅ ∅).
  - by rewrite multiplicity_disj_union, multiplicity_empty.
  - intros y. by rewrite lookup_empty.
Qed.

Lemma common_step (X Y : gmultiset A) (e : A) :
  size ((X ⊎ {[+ e +]}) ∩ Y)
  = size (X ∩ Y) + (if decide (multiplicity e X < multiplicity e Y) then 1 else 0).
Proof.
  case_decide.
  - assert ((X ⊎ {[+ e +]}) ∩ Y = (X ∩ Y) ⊎ {[+ e +]}) as ->.
    { apply gmultiset_eq. intros x.
      rewrite !multiplicity_intersection, !multiplicity_disj_union,
        !multiplicity_intersection, multiplicity_singleton.
      case_decide; subst; lia. }
    rewrite gmultiset_size_disj_union, gmultiset_size_singleton. done.
  - assert ((X ⊎ {[+ e +]}) ∩ Y = (X ∩ Y)) as ->; [|lia].
    apply gmultiset_eq. intros x.
    rewrite !multiplicity_intersection, !multiplicity_disj_union, multiplicity_singleton.
    case_decide; subst; lia.
Qed.

Lemma quick_fold (a b : list A) (avail : gmap A Z) (matches : nat) (P : gmultiset A) :
  (∀ x, numb_of b avail x
        = (Z.of_nat (multiplicity x (list_to_set_disj b : gmultiset A))
           - Z.of_nat (multiplicity x P))%Z) →
  matches = size (P ∩ list_to_set_disj b) →
  (foldl (quick_step (fullbcount b)) (avail, matches) a).2
  = size ((P ⊎ list_to_set_disj a) ∩ list_to_set_disj b).
Proof.
  revert avail matches P. induction a as [|e a IH]; intros avail matches P Hav Hm.
  - cbn [foldl snd]. rewrite Hm. do 2 f_equal. rewrite list_to_set_disj_nil. by rewrite (right_id ∅ (⊎)).
  - cbn [foldl]. unfold quick_step at 2. fold (numb_of b avail e).
    rewrite (IH _ _ (P ⊎ {[+ e +]})).
    + do 2 f_equal. rewrite list_to_set_disj_cons. by rewrite (assoc (⊎)).
    + intros x. unfold numb_of at 1. destruct (decide (e = x)) as [->|].
      * rewrite lookup_insert_eq, Hav, multiplicity_disj_union, multiplicity_singleton_eq. lia.
      * rewrite lookup_insert_ne by done. fold (numb_of b avail x).
        rewrite Hav, multiplicity_disj_union, multiplicity_singleton_ne by done. lia.
    + rewrite common_step, Hm, Hav.
      case_bool_decide; case_decide; lia.
Qed.

Lemma quick_matches a b :
  (foldl (quick_step (fullbcount b)) (∅, 0) a).2 = common a b.
Proof.
  rewrite (quick_fold a b ∅ 0 ∅).
  - unfold common. do 2 f_equal. by rewrite (left_id ∅ (⊎)).
  - intros x. unfold numb_of. rewrite lookup_empty, fullbcount_multiplicity.
    rewrite multiplicity_empty. lia.
  - symmetry. apply gmultiset_size_empty_iff. multiset_solver.
Qed.

Lemma common_le_min a b : common a b ≤ length a `min` length b.
Proof.
  unfold common. rewrite <- (size_list_to_set_disj a), <- (size_list_to_set_disj b).
  apply Nat.min_glb; apply gmultiset_subseteq_size; multiset_solver.
Qed.

Lemma calculate_ratio_mono m1 m2 t : m1 ≤ m2 → (calculate_ratio m1 t <= calculate_ratio m2 t)%Q.
Proof.
  intros Hm. unfold calculate_ratio. destruct t as [|t]; [apply Qle_refl|].
  unfold Qdiv. apply Qmult_le_compat_r.
  - apply Qmult_le_l; [done|]. rewrite <- Zle_Qle. lia.
  - apply Qinv_le_0_compat. rewrite <- (Zle_Qle 0). lia.
Qed.

Lemma ratio_le_quick_ratio a b : (ratio a b <= quick_ratio a b)%Q.
Proof.
  unfold ratio, quick_ratio. apply calculate_ratio_mono.
  rewrite quick_matches. apply get_matching_blocks_sizes.
Qed.

Lemma ratio_le_real_quick_ratio a b : (ratio a b <= real_quick_ratio a b)%Q.
Proof.
  unfold ratio, real_quick_ratio. apply calculate_ratio_mono.
  etrans; [apply get_matching_blocks_sizes|apply common_le_min].
Qed.

End matcher_facts.

(** * The best candidate *)

Section scored_order.
Implicit Types (p q r : scored).

Lemma ltb_trans (s1 s2 s3 : string) :
  String.ltb s1 s2 = true → String.ltb s2 s3 = true → String.ltb s1 s3 = true.
Proof.
  unfold String.ltb. intros H1 H2.
  destruct (String.compare s1 s2) eqn:E1; try done.
  destruct (String.compare s2 s3) eqn:E2; try done.
  apply String_as_OT.cmp_lt in E1, E2.
  pose proof (String_as_OT.lt_trans _ _ _ E1 E2) as E3.
  apply String_as_OT.cmp_lt in E3. unfold String_as_OT.cmp in E3. by rewrite E3.
Qed.

Lemma ltb_irrefl (s : string) : String.ltb s s = false.
Proof.
  unfold String.ltb. assert (String.compare s s = Eq) as -> by by apply String_as_OT.cmp_eq.
  done.
Qed.

Lemma ltb_total (s1 s2 : string) :
  String.ltb s1 s2 = true ∨ s1 = s2 ∨ String.ltb s2 s1 = true.
Proof.
  unfold String.ltb. rewrite (String.compare_antisym s2 s1).
  destruct (String.compare s1 s2) eqn:E; simpl; auto.
  right. left. by apply String.compare_eq_iff.
Qed.

Lemma ltb_leb (s1 s2 : string) : String.ltb s1 s2 = false → String.leb s2 s1 = true.
Proof.
  unfold String.ltb, String.leb. rewrite (String.compare_antisym s2 s1).
  by destruct (String.compare s1 s2).
Qed.

Lemma scored_gt_sgt p q : scored_gt p q = true ↔ sgt p q.
Proof.
  unfold scored_gt, sgt. destruct (Qeq_bool p.1 q.1) eqn:E.
  - apply Qeq_bool_iff in E. split; [auto|]. intros [Hlt|[_ ?]]; [|done].
    rewrite E in Hlt. by apply Qlt_irrefl in Hlt.
  - apply Qeq_bool_neq in E. rewrite negb_true_iff.
    split.
    + intros Hle. left. apply Qnot_le_lt. intros Hle'%Qle_bool_iff. congruence.
    + intros [Hlt|[? _]]; [|done]. apply not_true_is_false. intros Hle%Qle_bool_iff.
      by apply Qlt_not_le in Hlt.
Qed.

Lemma sgt_trans p q r : sgt p q → sgt q r → sgt p r.
Proof.
  unfold sgt. intros [H1|[H1 H1']] [H2|[H2 H2']].
  - left. by eapply Qlt_trans.
  - left. by rewrite <- H2.
  - left. by rewrite H1.
  - right. split; [by rewrite H1|]. by eapply ltb_trans.
Qed.

(** Of two candidates neither above the other, one [≥] the other. *)
Lemma not_sgt_trans p q r : ¬ sgt p q → ¬ sgt q r → ¬ sgt p r.
Proof.
  unfold sgt. intros H1 H2 [H3|[H3 H3']].
  - destruct (Qlt_le_dec q.1 p.1) as [|Hpq]; [by apply H1; left|].
    destruct (Qlt_le_dec r.1 q.1) as [|Hqr]; [by apply H2; left|].
    apply (Qlt_irrefl r.1). eapply Qlt_le_trans; [done|]. by eapply Qle_trans.
  - destruct (Qlt_le_dec q.1 p.1) as [|Hpq]; [by apply H1; left|].
    destruct (Qlt_le_dec r.1 q.1) as [|Hqr]; [by apply H2; left|].
    assert (Hpq' : (p.1 == q.1)%Q).
    { apply Qle_antisym; [done|]. by rewrite H3. }
    assert (Hqr' : (q.1 == r.1)%Q) by by rewrite <- Hpq'.
    destruct (ltb_total q.2 p.2) as [?|[Heq|Hlt1]]; [by apply H1; right|..].
    + apply H2. right. split; [done|]. by rewrite Heq.
    + destruct (ltb_total r.2 q.2) as [?|[Heq|Hlt2]]; [by apply H2; right|..].
      * rewrite Heq in H3'. pose proof (ltb_trans _ _ _ H3' Hlt1) as Hq.
        by rewrite ltb_irrefl in Hq.
      * pose proof (ltb_trans _ _ _ Hlt1 (ltb_trans _ _ _ Hlt2 H3')) as Hp.
        by rewrite ltb_irrefl in Hp.
Qed.

Lemma not_sgt_antisym p q : ¬ sgt p q → ¬ sgt q p → (p.1 == q.1)%Q ∧ p.2 = q.2.
Proof.
  unfold sgt. intros H1 H2.
  destruct (Qlt_le_dec q.1 p.1) as [|Hpq]; [by destruct H1; left|].
  destruct (Qlt_le_dec p.1 q.1) as [|Hqp]; [by destruct H2; left|].
  assert (Heq : (p.1 == q.1)%Q) by by apply Qle_antisym.
  split; [done|].
  destruct (ltb_total p.2 q.2) as [?|[?|?]]; [|done|].
  - destruct H2. right. by split.
  - destruct H1. right. by split.
Qed.

(** [max_from m l] is an element of [m :: l] with none above it. *)
Lemma max_from_spec m l :
  max_from m l ∈ m :: l ∧ ∀ x, x ∈ m :: l → ¬ sgt x (max_from m l).
Proof.
  revert m. induction l as [|y l IH]; intros m.
  - simpl. split; [left|]. intros x ->%list_elem_of_singleton [Hlt|[_ Hlt]].
    + by apply Qlt_irrefl in Hlt.
    + by rewrite ltb_irrefl in Hlt.
  - cbn [max_from foldl]. fold (max_from (if scored_gt y m then y else m) l).
    destruct (IH (if scored_gt y m then y else m)) as [Hin Hmax].
    split.
    + apply elem_of_cons in Hin as [->|Hin]; [|by do 2 right].
      destruct (scored_gt y m); [right; left|left].
    + intros x Hx. destruct (scored_gt y m) eqn:Hym.
      * apply scored_gt_sgt in Hym.
        apply elem_of_cons in Hx as [->|Hx]; [|by apply Hmax].
        intros Hgt. apply (Hmax y); [left|]. by eapply sgt_trans.
      * assert (Hym' : ¬ sgt y m) by (rewrite <- scored_gt_sgt; congruence).
        apply elem_of_cons in Hx as [->|[->|Hx]%elem_of_cons].
        -- apply Hmax. left.
        -- eapply not_sgt_trans; [done|]. apply Hmax. left.
        -- apply Hmax. by right.
Qed.

End scored_order.

Section close_matches.
Implicit Types (word x c : string) (possibilities : list string).

(** The two quick tests never reject a candidate that [ratio] accepts. *)
Lemma close_enough_ratio cutoff word x :
  close_enough cutoff word x = Qle_bool cutoff (ratio (chars x) (chars word)).
Proof.
  unfold close_enough. destruct (Qle_bool cutoff (ratio _ _)) eqn:E.
  - apply Qle_bool_iff in E.
    assert (Qle_bool cutoff (real_quick_ratio (chars x) (chars word)) = true) as ->.
    { apply Qle_bool_iff. eapply Qle_trans; [done|apply ratio_le_real_quick_ratio]. }
    assert (Qle_bool cutoff (quick_ratio (chars x) (chars word)) = true) as ->.
    { apply Qle_bool_iff. eapply Qle_trans; [done|apply ratio_le_quick_ratio]. }
    done.
  - apply andb_false_r.
Qed.

Lemma get_close_matches_eq word possibilities cutoff :
  get_close_matches word possibilities cutoff
  = snd <$> nlargest (score word <$>
      filter (λ x, (cutoff <= ratio (chars x) (chars word))%Q) possibilities).
Proof.
  unfold get_close_matches. do 3 f_equal.
  apply list_filter_iff. intros x. rewrite close_enough_ratio.
  rewrite <- Qle_bool_iff. by destruct (Qle_bool _ _).
Qed.

Lemma get_close_matches_nil word possibilities cutoff :
  get_close_matches word possibilities cutoff = [] ↔
  ∀ x, x ∈ possibilities → ¬ (cutoff <= ratio (chars x) (chars word))%Q.
Proof.
  rewrite get_close_matches_eq.
  destruct (filter _ possibilities) as [|y l] eqn:Hf; simpl.
  - split; [|done]. intros _ x Hx Hle.
    assert (x ∈ filter (λ x, (cutoff <= ratio (chars x) (chars word))%Q) possibilities)
      by by apply list_elem_of_filter.
    rewrite Hf in *. by eapply not_elem_of_nil.
  - split; [done|]. intros Hall. exfalso.
    assert (Hy : y ∈ filter (λ x, (cutoff <= ratio (chars x) (chars word))%Q) possibilities)
      by (rewrite Hf; left).
    apply list_elem_of_filter in Hy as [Hle Hy]. by apply (Hall y).
Qed.

Lemma get_close_matches_best word possibilities cutoff c :
  get_close_matches word possibilities cutoff = [c] ↔
  c ∈ possibilities ∧ (cutoff <= ratio (chars c) (chars word))%Q ∧
  ∀ x, x ∈ possibilities → (cutoff <= ratio (chars x) (chars word))%Q →
       ¬ sgt (score word x) (score word c).
Proof.
  rewrite get_close_matches_eq.
  set (good := filter _ possibilities).
  assert (Hgood : ∀ x, x ∈ good ↔ (cutoff <= ratio (chars x) (chars word))%Q ∧ x ∈ possibilities)
    by (intros x; unfold good; by rewrite list_elem_of_filter).
  clearbody good. destruct good as [|y l].
  - simpl. split; [done|]. intros (Hc & Hle & _).
    assert (Hnil : c ∈ @nil string) by by apply Hgood. by apply not_elem_of_nil in Hnil.
  - rewrite fmap_cons. cbn [nlargest].
    destruct (max_from_spec (score word y) (score word <$> l)) as [Hin Hmax].
    rewrite <- fmap_cons in Hin, Hmax.
    apply list_elem_of_fmap in Hin as (m & Hm & Hin). rewrite Hm in *. simpl.
    split.
    + intros [= <-]. apply Hgood in Hin as [? ?]. split; [done|split; [done|]].
      intros x Hx Hle. apply Hmax, list_elem_of_fmap. exists x. split; [done|].
      by apply Hgood.
    + intros (Hc & Hle & Hbest). f_equal.
      apply (not_sgt_antisym (score word m) (score word c)).
      * apply Hbest; by apply Hgood in Hin as [? ?].
      * apply Hmax, list_elem_of_fmap. exists c. split; [done|]. by apply Hgood.
Qed.

Lemma get_close_matches_length word possibilities cutoff :
  length (get_close_matches word possibilities cutoff) ≤ 1.
Proof.
  unfold get_close_matches, nlargest. destruct (_ <$> filter _ _); simpl; lia.
Qed.

(** The result does not depend on the order of the candidates. *)
Lemma get_close_matches_Permutation word cutoff possibilities possibilities' :
  possibilities ≡ₚ possibilities' →
  get_close_matches word possibilities cutoff = get_close_matches word possibilities' cutoff.
Proof.
  intros Hp.
  pose proof (get_close_matches_length word possibilities cutoff) as Hlen.
  destruct (get_close_matches word possibilities cutoff) as [|c [|]] eqn:Hg; simpl in Hlen; [..|lia].
  - symmetry. apply get_close_matches_nil. intros x Hx.
    rewrite <- Hp in Hx. revert x Hx. by apply get_close_matches_nil.
  - symmetry. apply get_close_matches_best.
    apply get_close_matches_best in Hg as (Hc & Hle & Hbest).
    split; [by rewrite <- Hp|split; [done|]].
    intros x Hx. apply Hbest. by rewrite Hp.
Qed.

End close_matches.

Section reconcile_facts.
Context {V : Type}.
Implicit Types (df : DataFrame (V:=V)) (geo : list string) (s c : string).

Lemma fix_state_eq geo (d : gmap string string) state :
  fix_state geo d state
  = match fix_target geo state with Some v => <[state := v]> d | None => d end.
Proof.
  unfold fix_state, fix_target. destruct (manual_fix !! state); [done|].
  by destruct (get_close_matches _ _ _).
Qed.

Lemma state_fix_map_fold geo (ms : list string) (d : gmap string string) s :
  foldl (fix_state geo) d ms !! s
  = if decide (s ∈ ms) then from_option Some (d !! s) (fix_target geo s) else d !! s.
Proof.
  revert d. induction ms as [|x ms IH]; intros d.
  - cbn [foldl]. case_decide as Hin; [by apply not_elem_of_nil in Hin|done].
  - cbn [foldl]. rewrite IH, fix_state_eq.
    destruct (decide (x = s)) as [->|Hne].
    + rewrite (decide_True (P := s ∈ s :: ms)) by left.
      destruct (fix_target geo s) as [v|] eqn:Hv; simpl.
      * rewrite lookup_insert_eq. by case_decide.
      * by case_decide.
    + assert (Hd : (match fix_target geo x with Some v => <[x := v]> d | None => d end) !! s = d !! s).
      { destruct (fix_target geo x); [by rewrite lookup_insert_ne|done]. }
      rewrite Hd. destruct (decide (s ∈ ms)).
      * by rewrite decide_True by by right.
      * rewrite decide_False; [done|]. by intros [->|]%elem_of_cons.
Qed.

Lemma state_fix_map_of_lookup geo (ms : list string) s :
  state_fix_map_of geo ms !! s = if decide (s ∈ ms) then fix_target geo s else None.
Proof.
  unfold state_fix_map_of. rewrite state_fix_map_fold, lookup_empty.
  case_decide; [|done]. by destruct (fix_target geo s).
Qed.

Lemma elem_of_mismatches geo df s :
  s ∈ mismatches geo df ↔ s ∈ State <$> rows df ∧ s ∉ geo.
Proof.
  unfold mismatches, csv_states. rewrite list_elem_of_filter, elem_of_remove_dups. tauto.
Qed.

Lemma state_fix_map_lookup geo df s :
  state_fix_map geo df !! s
  = if decide (s ∈ State <$> rows df ∧ s ∉ geo) then fix_target geo s else None.
Proof.
  unfold state_fix_map. rewrite state_fix_map_of_lookup.
  repeat case_decide; try done; exfalso; rewrite elem_of_mismatches in *; tauto.
Qed.

Lemma replace_reconciled geo df s :
  s ∈ State <$> rows df → replace (state_fix_map geo df) s = reconciled geo s.
Proof.
  intros Hs. unfold replace, reconciled. rewrite state_fix_map_lookup.
  destruct (decide (s ∈ geo)).
  - by rewrite decide_False by tauto.
  - by rewrite decide_True by tauto.
Qed.

Lemma reconcile_eq geo df :
  reconcile geo df = mkDataFrame (columns df) (set_State (reconciled geo) <$> rows df).
Proof.
  unfold reconcile.
  assert (Hrows : set_State (replace (state_fix_map geo df)) <$> rows df
                  = set_State (reconciled geo) <$> rows df).
  { apply list_fmap_ext. intros i r Hr. unfold set_State. f_equal.
    apply replace_reconciled, list_elem_of_fmap. exists r. split; [done|].
    by eapply list_elem_of_lookup_2. }
  case_decide as Hd; [|unfold replace_State; by rewrite <- Hrows].
  rewrite <- Hrows, Hd. destruct df as [cols rws]. simpl. f_equal.
  rewrite <- (list_fmap_id rws) at 1. apply list_fmap_ext. intros i r _.
  destruct r. unfold set_State, replace. simpl. by rewrite lookup_empty.
Qed.

(** A name the matcher proposes is a canonical name. *)
Lemma fix_target_close geo s c :
  manual_fix !! s = None → fix_target geo s = Some c ↔ get_close_matches s geo cutoff = [c].
Proof.
  intros Hm. unfold fix_target. rewrite Hm.
  pose proof (get_close_matches_length s geo cutoff) as Hlen.
  destruct (get_close_matches s geo cutoff) as [|c' [|]]; simpl in *; [..|lia].
  - done.
  - split; congruence.
Qed.

End reconcile_facts.

(** * The reconciliation of the state names *)

Ltac by_compute := apply (bool_decide_unpack _); vm_compute; exact I.

Section reconcile_claims.
Context {V : Type}.
Implicit Types (df : DataFrame (V:=V)) (geo : list string) (s c x : string).

Lemma ratio_best geo s c :
  get_close_matches s geo cutoff = [c] →
  ∀ x, x ∈ geo → (ratio (chars x) (chars s) <= ratio (chars c) (chars s))%Q.
Proof.
  intros (Hc & Hle & Hbest)%get_close_matches_best x Hx.
  destruct (Qlt_le_dec (ratio (chars c) (chars s)) (ratio (chars x) (chars s))) as [Hlt|]; [|done].
  exfalso. apply (Hbest x Hx).
  - apply Qlt_le_weak. by eapply Qle_lt_trans.
  - by left.
Qed.

Lemma ratio_tie geo s c :
  get_close_matches s geo cutoff = [c] →
  ∀ x, x ∈ geo → (ratio (chars x) (chars s) == ratio (chars c) (chars s))%Q →
       String.leb x c = true.
Proof.
  intros (Hc & Hle & Hbest)%get_close_matches_best x Hx Heq.
  apply ltb_leb. apply not_true_is_false. intros Hlt.
  apply (Hbest x Hx); [by rewrite Heq|]. by right.
Qed.

Lemma reconciled_row geo df i r :
  rows df !! i = Some r →
  State <$> (rows (reconcile geo df) !! i) = Some (reconciled geo (State r)).
Proof.
  intros Hr. rewrite reconcile_eq. simpl. by rewrite list_lookup_fmap, Hr.
Qed.

(** C3. A state name that is in the canonical set is not a key of
    [state_fix_map], and every row that holds it holds it after the
    run. *)
Theorem canonical_name_unaltered geo df i r :
  rows df !! i = Some r → State r ∈ geo →
  state_fix_map geo df !! State r = None
  ∧ State <$> (rows (reconcile geo df) !! i) = Some (State r).
Proof.
  intros Hr Hgeo. split.
  - rewrite state_fix_map_lookup. by rewrite decide_False by tauto.
  - rewrite (reconciled_row _ _ _ _ Hr). unfold reconciled. by rewrite decide_True.
Qed.

(** C4, as amended. A state name of the table that is not in the
    canonical set and has an entry in [manual_fix] is mapped to that
    entry, whatever the scores of the canonical names: the rows that
    hold it hold the override after the run. *)
Theorem manual_override_applies geo df i r fixed :
  rows df !! i = Some r → State r ∉ geo → manual_fix !! State r = Some fixed →
  state_fix_map geo df !! State r = Some fixed
  ∧ State <$> (rows (reconcile geo df) !! i) = Some fixed.
Proof.
  intros Hr Hgeo Hfix.
  assert (Hin : State r ∈ State <$> rows df).
  { apply list_elem_of_fmap. exists r. split; [done|]. by eapply list_elem_of_lookup_2. }
  assert (Ht : fix_target geo (State r) = Some fixed) by (unfold fix_target; by rewrite Hfix).
  split.
  - rewrite state_fix_map_lookup. by rewrite decide_True by tauto.
  - rewrite (reconciled_row _ _ _ _ Hr). unfold reconciled.
    by rewrite decide_False, Ht by done.
Qed.

(** C5, as amended. For a mismatched name [s] without a manual entry
    the matcher compares the strings as they are, upper and lower case
    being different characters. A canonical name is accepted exactly
    when some canonical name has a ratio of at least [0.6] with [s];
    the name accepted is canonical, has a ratio of at least [0.6], and
    no canonical name has a greater one. When every ratio is below
    [0.6] the name has no entry in [state_fix_map] and stays as it is. *)
Theorem fuzzy_match_accepts_best geo df s :
  s ∈ State <$> rows df → s ∉ geo → manual_fix !! s = None →
  (∀ c, state_fix_map geo df !! s = Some c →
        c ∈ geo ∧ (cutoff <= ratio (chars c) (chars s))%Q
        ∧ ∀ x, x ∈ geo → (ratio (chars x) (chars s) <= ratio (chars c) (chars s))%Q)
  ∧ (is_Some (state_fix_map geo df !! s)
     ↔ ∃ x, x ∈ geo ∧ (cutoff <= ratio (chars x) (chars s))%Q)
  ∧ ((∀ x, x ∈ geo → (ratio (chars x) (chars s) < cutoff)%Q) →
     state_fix_map geo df !! s = None ∧ replace (state_fix_map geo df) s = s).
Proof.
  intros Hin Hgeo Hman.
  assert (Hlook : state_fix_map geo df !! s = fix_target geo s).
  { rewrite state_fix_map_lookup. by rewrite decide_True by tauto. }
  assert (Hnone : state_fix_map geo df !! s = None ↔
                  ∀ x, x ∈ geo → ¬ (cutoff <= ratio (chars x) (chars s))%Q).
  { rewrite Hlook, <- get_close_matches_nil. unfold fix_target. rewrite Hman.
    destruct (get_close_matches s geo cutoff); simpl; split; done. }
  assert (Hfirst : ∀ c, state_fix_map geo df !! s = Some c →
        c ∈ geo ∧ (cutoff <= ratio (chars c) (chars s))%Q
        ∧ ∀ x, x ∈ geo → (ratio (chars x) (chars s) <= ratio (chars c) (chars s))%Q).
  { intros c Hc. rewrite Hlook in Hc. apply fix_target_close in Hc; [|done].
    pose proof (ratio_best _ _ _ Hc) as Hbest.
    apply get_close_matches_best in Hc as (? & ? & _). done. }
  split; [done|split].
  - split.
    + intros [c Hc]. destruct (Hfirst c Hc) as (? & ? & _). eauto.
    + intros (x & Hx & Hle). apply not_eq_None_Some. intros Hn.
      by apply (proj1 Hnone Hn x Hx).
  - intros Hlow.
    assert (Hn : state_fix_map geo df !! s = None).
    { apply Hnone. intros x Hx Hle. apply (Qlt_not_le _ _ (Hlow x Hx) Hle). }
    split; [done|]. unfold replace. by rewrite Hn.
Qed.


Lemma fix_target_canonical geo s c :
  map_Forall (λ _ fixed, fixed ∈ geo) manual_fix → fix_target geo s = Some c → c ∈ geo.
Proof.
  intros Hman Hc. destruct (manual_fix !! s) as [fixed|] eqn:Hfix.
  - unfold fix_target in Hc. rewrite Hfix in Hc. simplify_eq. by eapply Hman.
  - apply fix_target_close in Hc; [|done].
    by apply get_close_matches_best in Hc as (? & _).
Qed.

Lemma reconciled_idempotent geo s :
  map_Forall (λ _ fixed, fixed ∈ geo) manual_fix →
  reconciled geo (reconciled geo s) = reconciled geo s.
Proof.
  intros Hman. unfold reconciled at 2 3. destruct (decide (s ∈ geo)) as [|Hs].
  - unfold reconciled. by rewrite decide_True.
  - destruct (fix_target geo s) as [c|] eqn:Hc; simpl.
    + unfold reconciled. rewrite decide_True; [done|]. by eapply fix_target_canonical.
    + unfold reconciled. by rewrite decide_False, Hc.
Qed.

(** C6, as amended. When every override of [manual_fix] is a canonical
    name, a second run of the reconciliation changes nothing. *)
Theorem reconcile_idempotent geo df :
  map_Forall (λ _ fixed, fixed ∈ geo) manual_fix →
  reconcile geo (reconcile geo df) = reconcile geo df.
Proof.
  intros Hman. rewrite (reconcile_eq geo (reconcile geo df)).
  rewrite (reconcile_eq geo df). simpl. f_equal.
  rewrite <- list_fmap_compose. apply list_fmap_ext. intros i r _.
  unfold set_State. simpl. f_equal. by apply reconciled_idempotent.
Qed.

Lemma fix_target_Permutation geo geo' s : geo ≡ₚ geo' → fix_target geo' s = fix_target geo s.
Proof.
  intros Hp. unfold fix_target. by rewrite (get_close_matches_Permutation s cutoff geo geo' Hp).
Qed.

(** C9, as amended. The mapping is a function of the names of the
    table and of the canonical names as sets: neither the order in
    which the canonical set is iterated nor the order in which the
    mismatches are visited changes it. Among canonical names of equal
    ratio the one accepted is the greatest in the order of strings. *)
Theorem reconciliation_order_independent geo geo' df ms :
  geo ≡ₚ geo' → ms ≡ₚ mismatches geo df →
  state_fix_map_of geo' ms = state_fix_map geo df
  ∧ state_fix_map geo' df = state_fix_map geo df
  ∧ ∀ s c x, manual_fix !! s = None → state_fix_map geo df !! s = Some c → x ∈ geo →
             (ratio (chars x) (chars s) == ratio (chars c) (chars s))%Q →
             String.leb x c = true.
Proof.
  intros Hgeo Hms. split; [|split].
  - apply map_eq. intros s. unfold state_fix_map.
    rewrite !state_fix_map_of_lookup, (fix_target_Permutation geo geo') by done.
    repeat case_decide; try done; exfalso; rewrite Hms in *; tauto.
  - apply map_eq. intros s.
    rewrite !state_fix_map_lookup, (fix_target_Permutation geo geo') by done.
    repeat case_decide; try done; exfalso; rewrite <- Hgeo in *; tauto.
  - intros s c x Hman Hc Hx Heq. rewrite state_fix_map_lookup in Hc.
    case_decide; [|done]. apply fix_target_close in Hc; [|done].
    by eapply ratio_tie.
Qed.

(** C10. A target recorded by the matcher is a canonical name. A
    manual override is recorded for every mismatched name that has
    one, whether or not the override is a canonical name: against the
    canonical set [{"Kerala"}], ["Odisha"] is mapped to ["Orissa"]. *)
Theorem fuzzy_target_is_canonical geo df :
  (∀ s c, manual_fix !! s = None → state_fix_map geo df !! s = Some c → c ∈ geo)
  ∧ (∀ s fixed, s ∈ State <$> rows df → s ∉ geo → manual_fix !! s = Some fixed →
                state_fix_map geo df !! s = Some fixed)
  ∧ (state_fix_map ["Kerala"] (table_of (V:=V) ["Odisha"]) !! "Odisha" = Some "Orissa"
     ∧ "Orissa" ∉ ["Kerala"]).
Proof.
  split; [|split].
  - intros s c Hman Hc. rewrite state_fix_map_lookup in Hc. case_decide; [|done].
    apply fix_target_close in Hc; [|done].
    by apply get_close_matches_best in Hc as (? & _).
  - intros s fixed Hs Hgeo Hfix. rewrite state_fix_map_lookup.
    rewrite decide_True by tauto. unfold fix_target. by rewrite Hfix.
  - split; [by vm_compute|by_compute].
Qed.

End reconcile_claims.

(** Against C4 as stated: the canonical set [{"Odisha"}] keeps
    ["Odisha"], which has the override ["Orissa"] in [manual_fix]. *)
Lemma manual_override_skipped_for_canonical_name :
  manual_fix !! "Odisha" = Some "Orissa"
  ∧ state_fix_map ["Odisha"] (table_of (V:=()) ["Odisha"]) !! "Odisha" = None
  ∧ State <$> rows (reconcile ["Odisha"] (table_of (V:=()) ["Odisha"])) = ["Odisha"].
Proof. by vm_compute. Qed.

(** Against C5 as stated: ["KERALA"] and ["Kerala"] are the same name
    but for the case, and ["KERALA"] is left alone; ["Delta"] has a ratio
    of exactly [0.6] with ["Delhi"], which does not exceed the threshold,
    and is accepted. *)
Lemma case_matters_and_threshold_is_inclusive :
  ((cutoff < spec_similarity "KERALA" "Kerala")%Q
   ∧ state_fix_map ["Kerala"] (table_of (V:=()) ["KERALA"]) !! "KERALA" = None)
  ∧ (¬ (cutoff < spec_similarity "Delhi" "Delta")%Q
     ∧ state_fix_map ["Delta"] (table_of (V:=()) ["Delhi"]) !! "Delhi" = Some "Delta").
Proof. by vm_compute. Qed.

(** Against C6 as stated: with the canonical set [{"Orisa"}], the first
    run turns ["Odisha"] into ["Orissa"] and a second run turns that
    into ["Orisa"]. *)
Lemma second_run_renames_again :
  reconcile ["Orisa"] (reconcile ["Orisa"] (table_of (V:=()) ["Odisha"]))
  ≠ reconcile ["Orisa"] (table_of (V:=()) ["Odisha"]).
Proof.
  intros Heq. apply (f_equal (λ df, State <$> rows df)) in Heq.
  vm_compute in Heq. discriminate.
Qed.

(** Against C9 as stated: ["Gob"] and ["Goc"] have the same ratio with
    ["Goa"]; ["Gob"] comes first in the iteration order, and ["Goc"] is
    accepted. *)
Lemma tie_is_not_broken_by_iteration_order :
  spec_first_best "Goa" ["Gob"; "Goc"] = Some "Gob"
  ∧ state_fix_map ["Gob"; "Goc"] (table_of (V:=()) ["Goa"]) !! "Goa" = Some "Goc".
Proof. by vm_compute. Qed.

(** * The aggregate of panel 1 *)

Section aggregate_facts.
Context {V : Type}.
Implicit Types (df : DataFrame (V:=V)) (lv : level).

(** ** Counting keys *)

Lemma occurrences_pos `{EqDecision K} (keys : list K) k :
  k ∈ keys → 1 ≤ occurrences keys k.
Proof.
  unfold occurrences. induction 1 as [|x y l _ IH].
  - rewrite filter_cons_True by done. simpl. lia.
  - rewrite filter_cons. case_decide; simpl; lia.
Qed.

Lemma occurrences_fst `{EqDecision K1, EqDecision K2} (keys : list (K1 * K2)) g :
  occurrences keys.*1 g = length (filter (λ k, k.1 = g) keys).
Proof.
  unfold occurrences. induction keys as [|[g' s] keys IH]; [done|].
  rewrite fmap_cons, !filter_cons. simpl.
  repeat case_decide; simpl; congruence.
Qed.

(** The counts of the distinct keys that satisfy [P] add up to the
    number of keys that satisfy [P]. *)
Lemma sum_occurrences `{EqDecision K} (P : K → Prop) `{!∀ k, Decision (P k)}
    (distinct keys : list K) :
  NoDup distinct → (∀ k, k ∈ distinct ↔ k ∈ keys) →
  sum_list (occurrences keys <$> filter P distinct) = length (filter P keys).
Proof.
  intros Hnd. revert keys. induction Hnd as [|x l Hx Hnd IH]; intros keys Hin.
  - destruct keys as [|k keys]; [done|].
    exfalso. apply (not_elem_of_nil k), Hin. left.
  - set (keys' := filter (λ k, k ≠ x) keys).
    assert (Hin' : ∀ k, k ∈ l ↔ k ∈ keys').
    { intros k. unfold keys'. rewrite list_elem_of_filter, <- Hin, elem_of_cons.
      split; [intros Hk; split; [intros ->; done|auto]|intros [? [?|?]]; done]. }
    assert (Hocc : ∀ k, k ≠ x → occurrences keys k = occurrences keys' k).
    { intros k Hk. unfold occurrences, keys'. clear -Hk.
      induction keys as [|y keys IHk]; [done|].
      rewrite !filter_cons. repeat case_decide; simplify_eq; simpl;
        rewrite ?filter_cons; repeat case_decide; simplify_eq; simpl; congruence. }
    assert (Hsplit : length (filter P keys) =
              (if decide (P x) then occurrences keys x else 0) + length (filter P keys')).
    { unfold occurrences, keys'. clear. induction keys as [|y keys IHk].
      - simpl. by destruct (decide (P x)).
      - rewrite !filter_cons. destruct (decide (P x));
          repeat case_decide; simplify_eq; simpl;
          rewrite ?filter_cons; repeat case_decide; simplify_eq; simpl;
          first [done | lia]. }
    rewrite Hsplit, <- (IH keys' Hin').
    assert (Hrest : occurrences keys <$> filter P l = occurrences keys' <$> filter P l).
    { apply list_fmap_ext. intros i k Hk. apply Hocc.
      apply list_elem_of_lookup_2, list_elem_of_filter in Hk as [_ Hk].
      intros ->. done. }
    rewrite filter_cons. destruct (decide (P x)).
    + rewrite fmap_cons, Hrest. done.
    + rewrite Hrest. done.
Qed.

(** ** The shape of the tables *)

Lemma groupby_size_eq `{EqDecision K} (le : relation K) `{!RelDecision le} (keys : list K) :
  groupby_size le keys = (λ k, (k, occurrences keys k)) <$> merge_sort le (remove_dups keys).
Proof. done. Qed.

Lemma group_keys_NoDup `{EqDecision K} (le : relation K) `{!RelDecision le} (keys : list K) :
  NoDup (merge_sort le (remove_dups keys)).
Proof. rewrite merge_sort_Permutation. apply NoDup_remove_dups. Qed.

Lemma group_keys_elem `{EqDecision K} (le : relation K) `{!RelDecision le} (keys : list K) k :
  k ∈ merge_sort le (remove_dups keys) ↔ k ∈ keys.
Proof. rewrite merge_sort_Permutation. apply elem_of_remove_dups. Qed.

Lemma elem_of_groupby_size `{EqDecision K} (le : relation K) `{!RelDecision le}
    (keys : list K) k n :
  (k, n) ∈ groupby_size le keys ↔ k ∈ keys ∧ n = occurrences keys k.
Proof.
  rewrite groupby_size_eq, list_elem_of_fmap. split.
  - intros (k' & [= -> ->] & Hk). by apply group_keys_elem in Hk.
  - intros [Hk ->]. exists k. by rewrite group_keys_elem.
Qed.

End aggregate_facts.

Section tables.
Context {V : Type}.
Implicit Types (df : DataFrame (V:=V)) (lv : level) (r : Row (V:=V)).

Lemma level_status_keys_level lv df g s :
  (g, s) ∈ level_status_keys lv df → g ∈ level_keys lv df.
Proof.
  unfold level_status_keys, level_keys. rewrite !list_elem_of_omap.
  intros (r & Hr & Hk). exists r. split; [done|].
  destruct (level_of lv r) as [g'|]; [|done]. simpl in Hk.
  destruct (Growth_status r); simplify_eq/=. done.
Qed.

(** When no [Growth_status] is missing, both group-bys see the same rows. *)
Lemma level_status_keys_fst lv df :
  Forall (λ r, is_Some (Growth_status r)) (rows df) →
  (level_status_keys lv df).*1 = level_keys lv df.
Proof.
  unfold level_status_keys, level_keys.
  induction 1 as [|r l [s Hs] _ IH]; [done|]. simpl.
  rewrite Hs. destruct (level_of lv r) as [g|]; simpl; [f_equal|]; exact IH.
Qed.

Lemma merge_line_unique (groups : list string) (h : string → nat) g s c :
  NoDup groups → g ∈ groups →
  merge_line ((λ k, (k, h k)) <$> groups) (g, s, c)
  = [mkAggRow g s c (h g) (100 * Qnat c / Qnat (h g))%Q].
Proof.
  unfold merge_line. induction 1 as [|x l Hx Hnd IH]; intros Hg.
  - by apply not_elem_of_nil in Hg.
  - rewrite fmap_cons. simpl. destruct (decide (x = g)) as [->|Hne].
    + f_equal. clear IH Hg. induction l as [|y l IHl]; [done|].
      apply not_elem_of_cons in Hx as [Hy Hl]. simpl.
      rewrite decide_False by done. by apply IHl; [|eapply NoDup_cons_1_2].
    + apply IH. by apply elem_of_cons in Hg as [->|].
Qed.

Lemma agg_lines lv df :
  agg lv df = line_of lv df <$> merge_sort key_le (remove_dups (level_status_keys lv df)).
Proof.
  unfold agg, count_table, total, groupby_size.
  set (l := merge_sort key_le _).
  assert (Hl : ∀ k, k ∈ l → k.1 ∈ level_keys lv df).
  { intros [g s]. unfold l. rewrite group_keys_elem. apply level_status_keys_level. }
  clearbody l. induction l as [|[g s] l IH]; [done|].
  rewrite !fmap_cons, bind_cons, IH by (intros; apply Hl; by right).
  rewrite merge_line_unique; [done|apply group_keys_NoDup|].
  apply group_keys_elem, (Hl (g, s)). left.
Qed.

Lemma group_lines_agg lv df g :
  group_lines g (agg lv df)
  = line_of lv df <$> filter (λ k, k.1 = g) (merge_sort key_le (remove_dups (level_status_keys lv df))).
Proof.
  rewrite agg_lines. unfold group_lines.
  induction (merge_sort _ _) as [|k l IH]; [done|].
  rewrite fmap_cons, !filter_cons. simpl.
  case_decide; rewrite IH; done.
Qed.

(** The counts of the lines of a group add up to the number of rows of
    the group that have a [Growth_status]. *)
Lemma group_counts lv df g :
  sum_list (agg_count <$> group_lines g (agg lv df))
  = occurrences (level_status_keys lv df).*1 g.
Proof.
  rewrite group_lines_agg, <- list_fmap_compose, occurrences_fst.
  rewrite <- (sum_occurrences (λ k, k.1 = g) (merge_sort key_le (remove_dups (level_status_keys lv df)))).
  - done.
  - apply group_keys_NoDup.
  - intros k. apply group_keys_elem.
Qed.

(** ** The rows that reach the panels *)

Lemma filter_growth_status (loaded : DataFrame (V:=V)) :
  Forall (λ r, is_Some (Growth_status r)) (rows (filter_growth loaded)).
Proof.
  unfold filter_growth. simpl. apply Forall_forall. intros r Hr.
  apply list_elem_of_filter in Hr as [Hr _].
  destruct (Growth_status r); [by eexists|done].
Qed.

Lemma reconcile_Growth_status geojson_states df :
  Growth_status <$> rows (reconcile geojson_states df) = Growth_status <$> rows df.
Proof.
  unfold reconcile. case_decide; [done|]. simpl.
  rewrite <- list_fmap_compose. done.
Qed.

Lemma prepare_status geojson_states (loaded : DataFrame (V:=V)) :
  Forall (λ r, is_Some (Growth_status r)) (rows (prepare geojson_states loaded)).
Proof.
  unfold prepare.
  pose proof (filter_growth_status loaded) as Hf.
  apply Forall_forall. intros r Hr.
  assert (Hc : Growth_status r ∈ Growth_status <$> rows (reconcile geojson_states (filter_growth loaded)))
    by (apply list_elem_of_fmap; eauto).
  rewrite reconcile_Growth_status in Hc.
  apply list_elem_of_fmap in Hc as (r' & -> & Hr').
  by eapply Forall_forall in Hf.
Qed.

End tables.

Section aggregate_claims.
Context {V : Type}.
Implicit Types (df loaded : DataFrame (V:=V)) (lv : level).

Lemma Qnat_add n m : (Qnat (n + m) == Qnat n + Qnat m)%Q.
Proof. unfold Qnat. by rewrite Nat2Z.inj_add, inject_Z_plus. Qed.

Lemma Qnat_nonzero n : 1 ≤ n → ¬ (Qnat n == 0)%Q.
Proof.
  intros Hn Hq. unfold Qnat, Qeq in Hq. simpl in Hq. lia.
Qed.

Lemma Qsum_percentages (t : Q) (counts : list nat) :
  (Qsum ((λ c, 100 * Qnat c / t) <$> counts) == 100 * Qnat (sum_list counts) / t)%Q.
Proof.
  induction counts as [|c counts IH].
  - simpl. unfold Qdiv. change (Qnat 0) with 0%Q. ring.
  - rewrite fmap_cons. simpl. rewrite IH, Qnat_add. unfold Qdiv. ring.
Qed.

Lemma group_lines_percentage lv df g :
  agg_percentage <$> group_lines g (agg lv df)
  = (λ c, 100 * Qnat c / Qnat (occurrences (level_keys lv df) g))%Q
      <$> (agg_count <$> group_lines g (agg lv df)).
Proof.
  rewrite group_lines_agg, <- !list_fmap_compose.
  apply list_fmap_ext. intros i k Hk.
  apply list_elem_of_lookup_2, list_elem_of_filter in Hk as [<- _]. done.
Qed.

Lemma group_lines_total lv df g r :
  r ∈ group_lines g (agg lv df) → agg_total r = occurrences (level_keys lv df) g.
Proof.
  rewrite group_lines_agg, list_elem_of_fmap. intros (k & -> & Hk).
  apply list_elem_of_filter in Hk as [<- _]. done.
Qed.

Lemma group_counts_prepared geojson_states loaded lv g :
  sum_list (agg_count <$> group_lines g (agg lv (prepare geojson_states loaded)))
  = occurrences (level_keys lv (prepare geojson_states loaded)) g.
Proof. rewrite group_counts, level_status_keys_fst; [done|]. apply prepare_status. Qed.

(** C1. For either level and every group [g] of that level, the counts
    of the lines of [agg] of [g], one line per growth status, add up to
    the total of [g]; and that is the total every such line carries. *)
Theorem category_counts_sum_to_total geojson_states loaded lv g t :
  (g, t) ∈ total lv (prepare geojson_states loaded) →
  sum_list (agg_count <$> group_lines g (agg lv (prepare geojson_states loaded))) = t
  ∧ ∀ r, r ∈ group_lines g (agg lv (prepare geojson_states loaded)) → agg_total r = t.
Proof.
  intros Ht. apply elem_of_groupby_size in Ht as [_ ->]. split.
  - apply group_counts_prepared.
  - intros r. apply group_lines_total.
Qed.

(** C2. Every line of [agg] has [percentage = 100 * count / total], its
    total being that of its group, and the percentages of the lines of
    a group add up to 100, over the rationals. *)
Theorem percentages_sum_to_100 geojson_states loaded lv g t :
  (g, t) ∈ total lv (prepare geojson_states loaded) →
  Forall (λ r, agg_total r = t
               ∧ (agg_percentage r == 100 * Qnat (agg_count r) / Qnat (agg_total r))%Q)
         (group_lines g (agg lv (prepare geojson_states loaded)))
  ∧ (Qsum (agg_percentage <$> group_lines g (agg lv (prepare geojson_states loaded))) == 100)%Q.
Proof.
  intros Ht. apply elem_of_groupby_size in Ht as [Hg ->]. split.
  - apply Forall_forall. intros r Hr. split; [by apply group_lines_total|].
    revert Hr. rewrite group_lines_agg, list_elem_of_fmap.
    intros (k & -> & _). done.
  - rewrite group_lines_percentage, Qsum_percentages, group_counts_prepared.
    apply Qdiv_mult_l, Qnat_nonzero, occurrences_pos, Hg.
Qed.

(** C7. Every total of the group-by is at least 1, and so is the total
    of every line of [agg]: the divisor of the percentage is not zero. *)
Theorem totals_are_positive lv df :
  Forall (λ gt, 1 ≤ gt.2) (total lv df)
  ∧ Forall (λ r, 1 ≤ agg_total r ∧ ¬ (Qnat (agg_total r) == 0)%Q) (agg lv df).
Proof.
  split; apply Forall_forall.
  - intros [g t] Ht. apply elem_of_groupby_size in Ht as [Hg ->].
    by apply occurrences_pos.
  - intros r. rewrite agg_lines, list_elem_of_fmap. intros ([g s] & -> & Hk).
    apply group_keys_elem, level_status_keys_level in Hk.
    assert (1 ≤ occurrences (level_keys lv df) g) by by apply occurrences_pos.
    split; [done|]. by apply Qnat_nonzero.
Qed.

End aggregate_claims.

(** * The panels *)

Section panel_facts.
Context {V : Type} (mother_bmi : option V → option V → option V).
Implicit Types (df : DataFrame (V:=V)) (lv : level) (r : Row (V:=V)).

Lemma tab5_df df :
  (tab5 mother_bmi df).2
  = if decide (maternal_columns df) then (assign "Mother_BMI" (Mother_BMI mother_bmi) df).2 else df.
Proof.
  unfold tab5, maternal_columns, mbind, panel_bind, mret, panel_ret, read. simpl.
  destruct (decide _); simpl.
  - destruct (decide ("Maternal_anemia_status" ∈ _)); done.
  - destruct (decide ("Maternal_anemia_status" ∈ _)); done.
Qed.

Lemma panels_df lv mal_type df :
  (panels mother_bmi lv mal_type df).2 = (tab5 mother_bmi df).2.
Proof.
  unfold panels, mbind, panel_bind. simpl.
  by destruct (tab5 mother_bmi df).
Qed.

Lemma set_cell_frame name v r :
  State (set_cell name v r) = State r ∧ District (set_cell name v r) = District r
  ∧ Growth_status (set_cell name v r) = Growth_status r
  ∧ others (set_cell name v r) !! name = v
  ∧ ∀ name', name' ≠ name → others (set_cell name v r) !! name' = others r !! name'.
Proof.
  unfold set_cell. simpl. repeat split.
  - by rewrite lookup_partial_alter_eq.
  - intros name' Hne. by rewrite lookup_partial_alter_ne.
Qed.


End panel_facts.


(** * The claims on the sample survey *)

Lemma category_counts_witness :
  ("Orissa", 3) ∈ total ByState (prepare boundary_names (survey (V:=())))
  ∧ sum_list (agg_count <$> group_lines "Orissa" (agg ByState (prepare boundary_names (survey (V:=()))))) = 3.
Proof.
  assert (H : ("Orissa", 3) ∈ total ByState (prepare boundary_names (survey (V:=())))) by by_compute.
  split; [exact H|].
  exact (proj1 (category_counts_sum_to_total boundary_names survey ByState "Orissa" 3 H)).
Defined.

Lemma percentages_witness :
  ("Orissa", 3) ∈ total ByState (prepare boundary_names (survey (V:=())))
  ∧ (Qsum (agg_percentage <$> group_lines "Orissa" (agg ByState (prepare boundary_names (survey (V:=()))))) == 100)%Q.
Proof.
  assert (H : ("Orissa", 3) ∈ total ByState (prepare boundary_names (survey (V:=())))) by by_compute.
  split; [exact H|].
  exact (proj2 (percentages_sum_to_100 boundary_names survey ByState "Orissa" 3 H)).
Defined.

Lemma canonical_name_witness :
  rows (survey (V:=())) !! 1 = Some (child "Kerala" "Idukki" "Stunted")
  ∧ "Kerala" ∈ boundary_names
  ∧ state_fix_map boundary_names (survey (V:=())) !! "Kerala" = None
  ∧ State <$> (rows (reconcile boundary_names (survey (V:=()))) !! 1) = Some "Kerala".
Proof.
  assert (H1 : rows (survey (V:=())) !! 1 = Some (child "Kerala" "Idukki" "Stunted")) by reflexivity.
  assert (H2 : State (child (V:=()) "Kerala" "Idukki" "Stunted") ∈ boundary_names) by by_compute.
  split; [exact H1|]. split; [exact H2|].
  exact (canonical_name_unaltered boundary_names survey 1 _ H1 H2).
Defined.

Lemma manual_override_witness :
  rows (survey (V:=())) !! 0 = Some (child "Odisha" "Puri" "Stunted")
  ∧ ("Odisha" ∉ boundary_names)
  ∧ manual_fix !! "Odisha" = Some "Orissa"
  ∧ state_fix_map boundary_names (survey (V:=())) !! "Odisha" = Some "Orissa"
  ∧ State <$> (rows (reconcile boundary_names (survey (V:=()))) !! 0) = Some "Orissa".
Proof.
  assert (H1 : rows (survey (V:=())) !! 0 = Some (child "Odisha" "Puri" "Stunted")) by reflexivity.
  assert (H2 : State (child (V:=()) "Odisha" "Puri" "Stunted") ∉ boundary_names) by by_compute.
  assert (H3 : manual_fix !! State (child (V:=()) "Odisha" "Puri" "Stunted") = Some "Orissa")
    by (vm_compute; reflexivity).
  split; [exact H1|]. split; [exact H2|]. split; [exact H3|].
  exact (manual_override_applies boundary_names survey 0 _ "Orissa" H1 H2 H3).
Defined.

Lemma fuzzy_match_witness :
  "Keralaa" ∈ State <$> rows (survey (V:=()))
  ∧ ("Keralaa" ∉ boundary_names)
  ∧ manual_fix !! "Keralaa" = None
  ∧ (is_Some (state_fix_map boundary_names (survey (V:=())) !! "Keralaa")
     ↔ ∃ x, x ∈ boundary_names ∧ (cutoff <= ratio (chars x) (chars "Keralaa"))%Q).
Proof.
  assert (H1 : "Keralaa" ∈ State <$> rows (survey (V:=()))) by by_compute.
  assert (H2 : "Keralaa" ∉ boundary_names) by by_compute.
  assert (H3 : manual_fix !! "Keralaa" = None) by (vm_compute; reflexivity).
  split; [exact H1|]. split; [exact H2|]. split; [exact H3|].
  exact (proj1 (proj2 (fuzzy_match_accepts_best boundary_names survey "Keralaa" H1 H2 H3))).
Defined.

Lemma reconcile_idempotent_witness :
  map_Forall (λ _ fixed, fixed ∈ boundary_names) manual_fix
  ∧ reconcile boundary_names (reconcile boundary_names (survey (V:=())))
    = reconcile boundary_names (survey (V:=())).
Proof.
  assert (H : map_Forall (λ _ fixed, fixed ∈ boundary_names) manual_fix) by by_compute.
  split; [exact H|]. exact (reconcile_idempotent boundary_names survey H).
Defined.

Lemma order_independent_witness :
  boundary_names ≡ₚ ["Orissa"; "Goa"] ++ ["Kerala"]
  ∧ reverse (mismatches boundary_names (survey (V:=()))) ≡ₚ mismatches boundary_names (survey (V:=()))
  ∧ state_fix_map (["Orissa"; "Goa"] ++ ["Kerala"]) (survey (V:=()))
    = state_fix_map boundary_names (survey (V:=())).
Proof.
  assert (H1 : boundary_names ≡ₚ ["Orissa"; "Goa"] ++ ["Kerala"])
    by apply Permutation_cons_append.
  assert (H2 : reverse (mismatches boundary_names (survey (V:=())))
               ≡ₚ mismatches boundary_names (survey (V:=()))) by apply reverse_Permutation.
  split; [exact H1|]. split; [exact H2|].
  exact (proj1 (proj2 (reconciliation_order_independent _ _ _ _ H1 H2))).
Defined.

Lemma fuzzy_target_witness :
  manual_fix !! "Keralaa" = None
  ∧ state_fix_map boundary_names (survey (V:=())) !! "Keralaa" = Some "Kerala"
  ∧ "Kerala" ∈ boundary_names.
Proof.
  assert (H1 : manual_fix !! "Keralaa" = None) by (vm_compute; reflexivity).
  assert (H2 : state_fix_map boundary_names (survey (V:=())) !! "Keralaa" = Some "Kerala")
    by (vm_compute; reflexivity).
  split; [exact H1|]. split; [exact H2|].
  exact (proj1 (fuzzy_target_is_canonical boundary_names survey) "Keralaa" "Kerala" H1 H2).
Defined.


(** The aggregate by state of ten rows of ["Odisha"] and five of
    ["Kerala"], all ["Stunted"]: ["Odisha"] is renamed, and both states
    are at 100 percent. *)
Example ten_and_five_by_state :
  (λ r, (agg_level r, agg_Growth_status r, agg_count r, agg_total r, Qred (agg_percentage r)))
    <$> agg ByState (prepare boundary_names (ten_and_five (V:=())))
  = [("Kerala", "Stunted", 5, 5, 100%Q); ("Orissa", "Stunted", 10, 10, 100%Q)].
Proof. vm_compute. reflexivity. Qed.

(** * More on the matcher *)

Section ratio_more.
Context `{Countable A}.
Implicit Types (a b : list A).

Lemma calculate_ratio_cutoff (m L : nat) :
  (0.6 <= calculate_ratio m L)%Q → 3 * L ≤ 10 * m.
Proof.
  unfold calculate_ratio. destruct L as [|L]; [lia|].
  intros Hle.
  assert (Hpos : (0 < inject_Z (Z.of_nat (S L)))%Q) by (rewrite <- (Zlt_Qlt 0); lia).
  apply (Qmult_le_compat_r _ _ (inject_Z (Z.of_nat (S L)))) in Hle; [|by apply Qlt_le_weak].
  unfold Qdiv in Hle. rewrite <- Qmult_assoc, (Qmult_comm (/ _)), Qmult_inv_r, Qmult_1_r in Hle
    by (intros Heq; rewrite Heq in Hpos; by apply Qlt_irrefl in Hpos).
  unfold Qle in Hle. cbn [Qnum Qden Qmult inject_Z] in Hle. lia.
Qed.

Lemma calculate_ratio_range (m L : nat) :
  2 * m ≤ L → (0 <= calculate_ratio m L <= 1)%Q.
Proof.
  unfold calculate_ratio. destruct L as [|L]; [done|]. intros Hm.
  assert (Hpos : (0 < inject_Z (Z.of_nat (S L)))%Q) by (rewrite <- (Zlt_Qlt 0); lia).
  split.
  - apply Qle_shift_div_l; [done|]. rewrite Qmult_0_l.
    change 2%Q with (inject_Z 2). rewrite <- inject_Z_mult, <- (Zle_Qle 0). lia.
  - apply Qle_shift_div_r; [done|]. rewrite Qmult_1_l.
    change 2%Q with (inject_Z 2). rewrite <- inject_Z_mult, <- Zle_Qle. lia.
Qed.

(** X9. The three scores of [SequenceMatcher] are ordered as the
    docstrings of [quick_ratio] and [real_quick_ratio] say, and lie
    between 0 and 1: [0 <= ratio <= quick_ratio <= real_quick_ratio <= 1]. *)
Theorem ratio_bounds a b :
  (0 <= ratio a b)%Q ∧ (ratio a b <= quick_ratio a b)%Q
  ∧ (quick_ratio a b <= real_quick_ratio a b)%Q ∧ (real_quick_ratio a b <= 1)%Q.
Proof.
  pose proof (get_matching_blocks_sizes a b) as Hs.
  pose proof (common_le_min a b) as Hc.
  split; [|split; [|split]].
  - apply calculate_ratio_range. unfold sizes in Hs. lia.
  - unfold ratio, quick_ratio. rewrite quick_matches. by apply calculate_ratio_mono.
  - unfold quick_ratio, real_quick_ratio. rewrite quick_matches. by apply calculate_ratio_mono.
  - apply calculate_ratio_range. lia.
Qed.
End ratio_more.

Section fuzzy_more.
Context {V : Type}.
Implicit Types (df : DataFrame (V:=V)) (geo : list string) (s c x : string).

(** X8. A name that [get_close_matches] proposes for a state has, with
    multiplicity, at least three tenths of the characters of the two
    names in common with it, and neither name is more than seven thirds
    as long as the other. *)
Theorem fuzzy_target_shares_characters geo df s c :
  manual_fix !! s = None → state_fix_map geo df !! s = Some c →
  3 * (length (chars c) + length (chars s)) ≤ 10 * common (chars c) (chars s)
  ∧ 3 * length (chars c) ≤ 7 * length (chars s)
  ∧ 3 * length (chars s) ≤ 7 * length (chars c).
Proof.
  intros Hman Hc. rewrite state_fix_map_lookup in Hc. case_decide; [|done].
  apply fix_target_close in Hc; [|done].
  apply get_close_matches_best in Hc as (_ & Hle & _).
  assert (Hq : (cutoff <= quick_ratio (chars c) (chars s))%Q)
    by (eapply Qle_trans; [done|apply ratio_le_quick_ratio]).
  unfold quick_ratio in Hq. rewrite quick_matches in Hq.
  apply calculate_ratio_cutoff in Hq.
  pose proof (common_le_min (chars c) (chars s)). lia.
Qed.
End fuzzy_more.

Section blocks_more.
Context `{Countable A}.
Implicit Types (a b : list A) (b2j : gmap A (list nat)).

Lemma matches_at_app a b i j k1 k2 :
  matches_at a b i j k1 → matches_at a b (i + k1) (j + k1) k2 → matches_at a b i j (k1 + k2).
Proof.
  intros H1 H2 t Ht. destruct (decide (t < k1)) as [|Hge]; [by apply H1|].
  destruct (H2 (t - k1)) as (x & Ha & Hb); [lia|]. exists x.
  by replace (i + k1 + (t - k1)) with (i + t) in Ha by lia;
     replace (j + k1 + (t - k1)) with (j + t) in Hb by lia.
Qed.

Lemma matching_loop_real a b b2j fuel queue blocks blocks' :
  b2j_sound b b2j →
  Forall (region_inside a b) queue → Forall (real_block a b) blocks →
  matching_loop fuel a b b2j queue blocks = Some blocks' →
  Forall (real_block a b) blocks'.
Proof.
  intros Hs. revert queue blocks.
  induction fuel as [|fuel IH]; intros queue blocks Hq Hb Hloop.
  - destruct queue as [|[[[alo ahi] blo] bhi] queue]; simpl in Hloop; by simplify_eq.
  - destruct queue as [|[[[alo ahi] blo] bhi] queue]; [simpl in Hloop; by simplify_eq|].
    apply Forall_cons in Hq as [(Ha1 & Ha2 & Hb1 & Hb2) Hq].
    cbn [matching_loop] in Hloop.
    pose proof (find_longest_match_ok a b b2j alo ahi blo bhi Hs Ha1 Hb1) as Hok.
    destruct (find_longest_match a b b2j alo ahi blo bhi) as [[i j] k].
    destruct Hok as (?&?&?&?&Hm).
    case_bool_decide as Hk; [|by eapply IH].
    eapply IH; [| |exact Hloop].
    + repeat case_bool_decide; repeat (apply Forall_cons; split); try done;
        unfold region_inside; lia.
    + apply Forall_app. split; [done|]. apply Forall_singleton.
      split; [done|]. unfold block_ok. repeat split; [lia..|done].
Qed.

Lemma collapse_fold_real a b (l : list Match) (st : Match * list Match) :
  Forall (real_block a b) l →
  block_ok a b (0, length a, 0, length b) st.1 → Forall (real_block a b) st.2 →
  block_ok a b (0, length a, 0, length b) (foldl collapse_step st l).1
  ∧ Forall (real_block a b) (foldl collapse_step st l).2.
Proof.
  intros Hl. revert st. induction Hl as [|[[i2 j2] k2] l [Hk2 Hx] Hl IH];
    intros [[[i1 j1] k1] na] Hcur Hna; [done|].
  cbn [foldl]. apply IH; unfold collapse_step; simpl in *.
  - case_bool_decide as Hadj; [|done]. destruct Hadj as [<- <-].
    destruct Hcur as (?&?&?&?&Hm1), Hx as (?&?&?&?&Hm2).
    repeat split; [lia..|]. by apply matches_at_app.
  - case_bool_decide; [done|]. case_bool_decide; [|done].
    apply Forall_app. split; [done|]. by apply Forall_singleton.
Qed.

(** X10. [get_matching_blocks] always ends within the turns the model
    gives it. Its result is a list of blocks [(i, j, k)] with [k > 0],
    inside the two sequences and with [a[i:i+k] == b[j:j+k]], followed
    by the dummy [(len(a), len(b), 0)], as its docstring says. *)
Theorem get_matching_blocks_real a b :
  get_matching_blocks_opt a b = Some (get_matching_blocks a b)
  ∧ ∃ blocks, get_matching_blocks a b = blocks ++ [(length a, length b, 0)]
              ∧ Forall (λ m : Match,
                          m.2 ≠ 0 ∧ m.1.1 + m.2 ≤ length a ∧ m.1.2 + m.2 ≤ length b
                          ∧ matches_at a b m.1.1 m.1.2 m.2) blocks.
Proof.
  unfold get_matching_blocks.
  destruct (get_matching_blocks_opt_ok a b) as (res & Hres & _). rewrite Hres. simpl.
  split; [done|]. unfold get_matching_blocks_opt in Hres.
  destruct (matching_loop _ a b _ _ _) as [found|] eqn:Hloop; [|done].
  simpl in Hres. simplify_eq.
  assert (Hfound : Forall (real_block a b) found).
  { eapply matching_loop_real; [apply chain_b_sound| | |exact Hloop]; [|done].
    apply Forall_singleton. unfold region_inside. lia. }
  assert (Hsorted : Forall (real_block a b) (merge_sort Match_le found))
    by by rewrite merge_sort_Permutation.
  unfold collapse.
  destruct (collapse_fold_real a b _ ((0, 0, 0), []) Hsorted) as [Hcur Hna].
  { simpl. repeat split; [lia..|]. intros t Ht. lia. }
  { done. }
  destruct (foldl collapse_step _ _) as [[[i1 j1] k1] na]. simpl in Hcur, Hna.
  eexists. split; [done|].
  assert (Hall : Forall (real_block a b)
            (if bool_decide (k1 ≠ 0) then na ++ [(i1, j1, k1)] else na)).
  { case_bool_decide; [|done]. apply Forall_app. split; [done|].
    by apply Forall_singleton. }
  eapply Forall_impl; [exact Hall|].
  intros [[i j] k] [Hk (?&?&?&?&?)]. simpl in *. done.
Qed.

End blocks_more.

(** * More on the reconciliation *)

Section reconcile_more.
Context {V : Type}.
Implicit Types (df : DataFrame (V:=V)) (geo : list string) (s c x : string).

Lemma filter_growth_reconcile_rows geo (l : list (Row (V:=V))) (P : Row (V:=V) → Prop)
    `{!∀ r, Decision (P r)} :
  (∀ r f, P (set_State f r) ↔ P r) →
  filter P (set_State (reconciled geo) <$> l) = set_State (reconciled geo) <$> filter P l.
Proof.
  intros HP. induction l as [|r l IH]; [done|].
  rewrite fmap_cons, !filter_cons. destruct (decide (P r)) as [Hr|Hr].
  - rewrite decide_True by by apply HP. by rewrite fmap_cons, IH.
  - rewrite decide_False by by rewrite HP. done.
Qed.


(** X2. The rename of line 58 changes the [State] column only: the
    columns and the number of rows are kept, and every row keeps its
    other cells. Its new state is a function of its old state and of
    the canonical names, whatever the other rows: the old state when
    that is canonical, else its entry of [manual_fix], else the name
    [get_close_matches] gives, else the old state. *)
Theorem reconcile_changes_only_State geo df :
  columns (reconcile geo df) = columns df
  ∧ length (rows (reconcile geo df)) = length (rows df)
  ∧ ∀ i r, rows df !! i = Some r →
      ∃ r', rows (reconcile geo df) !! i = Some r'
            ∧ District r' = District r ∧ Growth_status r' = Growth_status r
            ∧ others r' = others r
            ∧ State r' =
                if decide (State r ∈ geo) then State r
                else match manual_fix !! State r with
                     | Some fixed => fixed
                     | None => default (State r) (head (get_close_matches (State r) geo cutoff))
                     end.
Proof.
  rewrite reconcile_eq. simpl. split; [done|]. split; [by rewrite length_fmap|].
  intros i r Hr. exists (set_State (reconciled geo) r).
  rewrite list_lookup_fmap, Hr. split; [done|]. simpl.
  do 3 (split; [done|]). unfold reconciled, fix_target.
  case_decide; [done|]. by destruct (manual_fix !! State r).
Qed.

(** On a table whose states are all strings, the filter of line 35 and
    the rename of lines 46-58 commute: a name is renamed in the same
    way whether or not the rows of other growth categories are still
    in the table. *)
Lemma filter_growth_reconcile geo df :
  filter_growth (reconcile geo df) = reconcile geo (filter_growth df).
Proof.
  rewrite (reconcile_eq geo (filter_growth df)), reconcile_eq.
  unfold filter_growth. simpl. f_equal.
  by apply filter_growth_reconcile_rows.
Qed.

Lemma mapM_with_state_filter (ls : list (LoadedRow (V:=V))) (rs : list (Row (V:=V))) :
  mapM with_state ls = Some rs →
  mapM with_state
    (filter (λ l, isin (mal_types ++ ["Normal"]) (loaded_Growth_status l)) ls)
  = Some (filter (λ r, isin (mal_types ++ ["Normal"]) (Growth_status r)) rs).
Proof.
  revert rs. induction ls as [|l ls IH]; intros rs Hrs.
  - by injection Hrs as <-.
  - change (mapM with_state (l :: ls))
      with (r ← with_state l; k ← mapM with_state ls; Some (r :: k)) in Hrs.
    destruct (with_state l) as [r|] eqn:Hl; [|done]. simpl in Hrs.
    destruct (mapM with_state ls) as [rs'|] eqn:Hls; [|done]. simpl in Hrs.
    injection Hrs as <-. specialize (IH _ eq_refl).
    assert (Hstatus : Growth_status r = loaded_Growth_status l).
    { unfold with_state in Hl. destruct (loaded_State l); [|done].
      simpl in Hl. by injection Hl as <-. }
    rewrite !filter_cons, Hstatus.
    destruct (decide (isin (mal_types ++ ["Normal"]) (loaded_Growth_status l))); [|done].
    change (mapM with_state (l :: ?ls'))
      with (r ← with_state l; k ← mapM with_state ls'; Some (r :: k)).
    by rewrite Hl, IH.
Qed.

Lemma mapM_with_state_None (ls : list (LoadedRow (V:=V))) l :
  l ∈ ls → loaded_State l = None → mapM with_state ls = None.
Proof.
  intros Hl Hstate. apply mapM_None, Exists_exists. exists l. split; [done|].
  unfold with_state. by rewrite Hstate.
Qed.


(** X4. When every state of the table is a canonical name, nothing is
    recorded in [state_fix_map] and the table is left as it is. *)
Theorem reconcile_canonical_table geo df :
  Forall (λ r, State r ∈ geo) (rows df) →
  state_fix_map geo df = ∅ ∧ reconcile geo df = df.
Proof.
  intros Hall.
  assert (Hd : state_fix_map geo df = ∅).
  { apply map_eq. intros s. rewrite state_fix_map_lookup, lookup_empty.
    case_decide as Hs; [|done]. exfalso. destruct Hs as [Hs Hgeo].
    apply list_elem_of_fmap in Hs as (r & -> & Hr).
    by eapply Hgeo, (proj1 (Forall_forall _ _) Hall). }
  split; [done|]. unfold reconcile. by rewrite decide_True.
Qed.

(** X5. An entry [k := v] of [state_fix_map] has for [k] a state of the
    table that is not canonical, and [v] is another name than [k]:
    either the manual override of [k] or a canonical name. A row changes
    its state exactly when its state is a key. *)
Theorem state_fix_map_entries geo df :
  (∀ k v, state_fix_map geo df !! k = Some v →
          k ∈ State <$> rows df ∧ (k ∉ geo) ∧ v ≠ k
          ∧ (manual_fix !! k = Some v ∨ (manual_fix !! k = None ∧ v ∈ geo)))
  ∧ (∀ i r r', rows df !! i = Some r → rows (reconcile geo df) !! i = Some r' →
               State r' ≠ State r ↔ is_Some (state_fix_map geo df !! State r)).
Proof.
  assert (Hentry : ∀ k v, state_fix_map geo df !! k = Some v →
          k ∈ State <$> rows df ∧ (k ∉ geo) ∧ v ≠ k
          ∧ (manual_fix !! k = Some v ∨ (manual_fix !! k = None ∧ v ∈ geo))).
  { intros k v Hk. rewrite state_fix_map_lookup in Hk.
    case_decide as Hin; [|done]. destruct Hin as [Hin Hgeo].
    split; [done|]. split; [done|].
    destruct (manual_fix !! k) as [fixed|] eqn:Hman.
    - unfold fix_target in Hk. rewrite Hman in Hk. simplify_eq.
      split; [|by left]. unfold manual_fix in Hman.
      apply lookup_singleton_Some in Hman as [<- <-]. done.
    - apply fix_target_close in Hk; [|done].
      apply get_close_matches_best in Hk as (Hv & _).
      split; [|by right]. by intros ->. }
  split; [done|].
  intros i r r' Hr Hr'. rewrite reconcile_eq in Hr'. simpl in Hr'.
  rewrite list_lookup_fmap, Hr in Hr'. simplify_eq/=.
  assert (Hin : State r ∈ State <$> rows df).
  { apply list_elem_of_fmap. exists r. split; [done|]. by eapply list_elem_of_lookup_2. }
  rewrite <- (replace_reconciled geo df) by done. unfold replace.
  destruct (state_fix_map geo df !! State r) as [v|] eqn:Hv; simpl.
  - split; [by eauto|]. intros _. by destruct (Hentry _ _ Hv) as (_ & _ & ? & _).
  - split; [done|]. by intros [? ?].
Qed.

(** X6. After the run a state of the table is a canonical name, or the
    manual override of the name it replaces, or a name that was left as
    it was because no canonical name has a ratio of [0.6] with it. *)
Theorem reconciled_state_cases geo df i r r' :
  rows df !! i = Some r → rows (reconcile geo df) !! i = Some r' →
  State r' ∈ geo
  ∨ manual_fix !! State r = Some (State r')
  ∨ (State r' = State r ∧ manual_fix !! State r = None
     ∧ ∀ x, x ∈ geo → (ratio (chars x) (chars (State r)) < cutoff)%Q).
Proof.
  intros Hr Hr'. rewrite reconcile_eq in Hr'. simpl in Hr'.
  rewrite list_lookup_fmap, Hr in Hr'. simplify_eq/=.
  unfold reconciled. case_decide; [by left|]. unfold fix_target.
  destruct (manual_fix !! State r) as [fixed|] eqn:Hman; simpl; [by right; left|].
  destruct (get_close_matches (State r) geo cutoff) as [|c l] eqn:Hc; simpl.
  - right. right. split; [done|]. split; [done|]. intros x Hx.
    apply Qnot_le_lt. revert x Hx. by apply get_close_matches_nil.
  - left. pose proof (get_close_matches_length (State r) geo cutoff) as Hlen.
    rewrite Hc in Hlen. destruct l; [|simpl in Hlen; lia].
    by apply get_close_matches_best in Hc as (? & _).
Qed.

(** X7. With an empty canonical set, the case of a boundary document
    without features, every state of the table is a mismatch and
    [get_close_matches] has nothing to propose: [state_fix_map] holds
    the manual overrides of the states of the table and nothing else. *)
Theorem state_fix_map_no_canonical_names df s :
  state_fix_map [] df !! s
  = if decide (s ∈ State <$> rows df) then manual_fix !! s else None.
Proof.
  rewrite state_fix_map_lookup.
  destruct (decide (s ∈ State <$> rows df)) as [Hs|Hs].
  - rewrite decide_True by (split; [done|apply not_elem_of_nil]).
    unfold fix_target. by destruct (manual_fix !! s).
  - rewrite decide_False by tauto. done.
Qed.

End reconcile_more.

(** * More on the aggregate *)

Section aggregate_more.
Context {V : Type}.
Implicit Types (df loaded : DataFrame (V:=V)) (lv : level) (geo : list string).

Lemma occurrences_omap {X} `{EqDecision K} (f : X → option K) (l : list X) (k : K) :
  occurrences (omap f l) k = length (filter (λ x, f x = Some k) l).
Proof.
  unfold occurrences. induction l as [|x l IH]; [done|].
  rewrite filter_cons.
  change (omap f (x :: l)) with (match f x with Some y => y :: omap f l | None => omap f l end).
  destruct (f x) as [k'|] eqn:Hx.
  - rewrite filter_cons. destruct (decide (k = k')) as [->|Hne].
    + rewrite decide_True by done. simpl. by rewrite IH.
    + rewrite decide_False by congruence. done.
  - rewrite decide_False by done. done.
Qed.

Lemma occurrences_fmap {X} `{EqDecision K} (f : X → K) (l : list X) (k : K) :
  occurrences (f <$> l) k = length (filter (λ x, f x = k) l).
Proof.
  unfold occurrences. induction l as [|x l IH]; [done|].
  rewrite fmap_cons, !filter_cons.
  destruct (decide (k = f x)) as [->|Hne].
  - rewrite decide_True by done. simpl. by rewrite IH.
  - rewrite decide_False by congruence. done.
Qed.

Lemma length_filter_mono {X} (P Q : X → Prop) `{!∀ x, Decision (P x), !∀ x, Decision (Q x)}
    (l : list X) :
  (∀ x, P x → Q x) → length (filter P l) ≤ length (filter Q l).
Proof.
  intros HPQ. induction l as [|x l IH]; [done|].
  rewrite !filter_cons. destruct (decide (P x)) as [HP|HP].
  - rewrite decide_True by auto. simpl. lia.
  - case_decide; simpl; lia.
Qed.

Lemma level_status_key_Some lv (r : Row (V:=V)) g s :
  (level_of lv r ≫= λ g, Growth_status r ≫= λ s, Some (g, s)) = Some (g, s)
  ↔ level_of lv r = Some g ∧ Growth_status r = Some s.
Proof.
  destruct (level_of lv r) as [g'|]; simpl; [|by split; [|intros [? _]]].
  destruct (Growth_status r) as [s'|]; simpl; [|by split; [|intros [_ ?]]].
  split; [by intros [= -> ->]|by intros [[= ->] [= ->]]].
Qed.

Lemma line_count lv df k :
  occurrences (level_status_keys lv df) k
  = length (filter (λ r, level_of lv r = Some k.1 ∧ Growth_status r = Some k.2) (rows df)).
Proof.
  unfold level_status_keys. rewrite occurrences_omap. f_equal.
  apply list_filter_iff. intros r. destruct k as [g s]. apply level_status_key_Some.
Qed.

Lemma line_total lv df g :
  occurrences (level_keys lv df) g
  = length (filter (λ r, level_of lv r = Some g) (rows df)).
Proof. unfold level_keys. by rewrite occurrences_omap. Qed.

Lemma elem_of_agg lv df r :
  r ∈ agg lv df ↔ ∃ k, r = line_of lv df k ∧ k ∈ level_status_keys lv df.
Proof.
  rewrite agg_lines, list_elem_of_fmap. by setoid_rewrite group_keys_elem.
Qed.

(** X11. What the lines of [agg] say: the count of a line is the number
    of rows with its level value and its growth status, its total the
    number of rows with its level value; every pair of a level value
    and a growth status that some row has is on one line. *)
Theorem agg_counts_rows lv df :
  (∀ r, r ∈ agg lv df →
        agg_count r = length (filter (λ row, level_of lv row = Some (agg_level r)
                                             ∧ Growth_status row = Some (agg_Growth_status r))
                                (rows df))
        ∧ agg_total r = length (filter (λ row, level_of lv row = Some (agg_level r)) (rows df)))
  ∧ (∀ row g s, row ∈ rows df → level_of lv row = Some g → Growth_status row = Some s →
        ∃ r, r ∈ agg lv df ∧ agg_level r = g ∧ agg_Growth_status r = s).
Proof.
  split.
  - intros r (k & -> & _)%elem_of_agg. simpl. by rewrite line_count, line_total.
  - intros row g s Hrow Hg Hs. exists (line_of lv df (g, s)). split; [|done].
    apply elem_of_agg. exists (g, s). split; [done|].
    unfold level_status_keys. apply list_elem_of_omap. exists row. split; [done|].
    by apply level_status_key_Some.
Qed.

Lemma line_bounds lv df k :
  k ∈ level_status_keys lv df →
  1 ≤ agg_count (line_of lv df k) ∧ agg_count (line_of lv df k) ≤ agg_total (line_of lv df k)
  ∧ (0 < agg_percentage (line_of lv df k))%Q ∧ (agg_percentage (line_of lv df k) <= 100)%Q.
Proof.
  intros Hk. simpl.
  assert (Hc : 1 ≤ occurrences (level_status_keys lv df) k) by by apply occurrences_pos.
  assert (Ht : occurrences (level_status_keys lv df) k ≤ occurrences (level_keys lv df) k.1).
  { rewrite line_count, line_total. apply length_filter_mono. tauto. }
  split; [done|]. split; [done|].
  set (c := occurrences (level_status_keys lv df) k) in *.
  set (t := occurrences (level_keys lv df) k.1) in *.
  assert (Hpos : (0 < Qnat t)%Q) by (unfold Qnat; rewrite <- (Zlt_Qlt 0); lia).
  split.
  - apply Qlt_shift_div_l; [done|]. rewrite Qmult_0_l.
    unfold Qnat. change 100%Q with (inject_Z 100).
    rewrite <- inject_Z_mult, <- (Zlt_Qlt 0). lia.
  - apply Qle_shift_div_r; [done|].
    unfold Qnat. change 100%Q with (inject_Z 100).
    rewrite <- !inject_Z_mult, <- Zle_Qle. lia.
Qed.

(** X12. On every line of [agg] the count is at least 1 and at most the
    total, and the percentage is above 0 and at most 100. *)
Theorem agg_line_bounds lv df :
  Forall (λ r, 1 ≤ agg_count r ∧ agg_count r ≤ agg_total r
               ∧ (0 < agg_percentage r)%Q ∧ (agg_percentage r <= 100)%Q) (agg lv df).
Proof.
  apply Forall_forall. intros r (k & -> & Hk)%elem_of_agg. by apply line_bounds.
Qed.

#[local] Instance key_le_total : Total key_le.
Proof.
  intros [g1 s1] [g2 s2]. unfold key_le. simpl.
  destruct (ltb_total g1 g2) as [Hlt|[->|Hlt]].
  - left. left. by rewrite Hlt.
  - destruct (String.leb_total s1 s2) as [Hle|Hle]; [left|right]; right; by rewrite Hle.
  - right. left. by rewrite Hlt.
Qed.

(** X13. [agg] has one line for a level value and a growth status, and
    its lines are in the order of the pairs (level value, growth
    status), as [groupby] sorts its keys. *)
Theorem agg_lines_sorted lv df :
  NoDup ((λ r, (agg_level r, agg_Growth_status r)) <$> agg lv df)
  ∧ Sorted key_le ((λ r, (agg_level r, agg_Growth_status r)) <$> agg lv df).
Proof.
  assert (Hkeys : (λ r, (agg_level r, agg_Growth_status r)) <$> agg lv df
                  = merge_sort key_le (remove_dups (level_status_keys lv df))).
  { rewrite agg_lines, <- list_fmap_compose.
    rewrite <- (list_fmap_id (merge_sort _ _)) at 2.
    apply list_fmap_ext. by intros i [g s] _. }
  rewrite Hkeys. split; [apply group_keys_NoDup|apply Sorted_merge_sort, _].
Qed.

Lemma filter_all {X} (P : X → Prop) `{!∀ x, Decision (P x)} (l : list X) :
  (∀ x, x ∈ l → P x) → filter P l = l.
Proof.
  induction l as [|x l IH]; intros HP; [done|].
  rewrite filter_cons, decide_True by (apply HP; left).
  f_equal. apply IH. intros y Hy. apply HP. by right.
Qed.

Lemma sum_all_occurrences `{EqDecision K} (le : relation K) `{!RelDecision le} (keys : list K) :
  sum_list (snd <$> groupby_size le keys) = length keys.
Proof.
  rewrite groupby_size_eq, <- list_fmap_compose.
  pose proof (sum_occurrences (λ _, True) (merge_sort le (remove_dups keys)) keys
                (group_keys_NoDup le keys) (group_keys_elem le keys)) as Hsum.
  rewrite !filter_all in Hsum by done. done.
Qed.

(** X14. No row is lost and none is counted twice: the totals of the
    groups add up to the number of rows that have a level value, which
    for the level [State] is the number of rows; and on the table the
    panels receive, the counts of all the lines of [agg] add up to it
    as well. *)
Theorem totals_add_up lv df geo loaded :
  sum_list (snd <$> total lv df) = length (filter (λ r, is_Some (level_of lv r)) (rows df))
  ∧ sum_list (snd <$> total ByState df) = length (rows df)
  ∧ sum_list (agg_count <$> agg lv (prepare geo loaded))
    = sum_list (snd <$> total lv (prepare geo loaded)).
Proof.
  assert (Hkeys : ∀ lv' (d : DataFrame (V:=V)),
            length (level_keys lv' d) = length (filter (λ r, is_Some (level_of lv' r)) (rows d))).
  { intros lv' d. unfold level_keys. induction (rows d) as [|r l IH]; [done|].
    rewrite filter_cons.
    change (omap (level_of lv') (r :: l))
      with (match level_of lv' r with Some y => y :: omap (level_of lv') l
            | None => omap (level_of lv') l end).
    destruct (level_of lv' r) as [g|]; case_decide as Hd; simpl; try by rewrite IH.
    all: exfalso; first [by destruct Hd; eexists | by destruct Hd]. }
  split; [|split].
  - unfold total. by rewrite sum_all_occurrences.
  - unfold total. rewrite sum_all_occurrences, Hkeys. f_equal.
    apply filter_all. intros r _. by eexists.
  - rewrite agg_lines, <- list_fmap_compose.
    unfold total. rewrite sum_all_occurrences.
    rewrite <- (level_status_keys_fst lv (prepare geo loaded)) by apply prepare_status.
    rewrite length_fmap, <- (sum_all_occurrences key_le (level_status_keys lv _)).
    by rewrite groupby_size_eq, <- list_fmap_compose.
Qed.


Lemma prepare_statuses geo loaded :
  Forall (λ r, ∃ s, Growth_status r = Some s ∧ s ∈ mal_types ++ ["Normal"])
    (rows (prepare geo loaded)).
Proof.
  unfold prepare. rewrite reconcile_eq. simpl. apply Forall_fmap, Forall_forall.
  intros r Hr. simpl. apply list_elem_of_filter in Hr as [Hs _].
  unfold isin in Hs. destruct (Growth_status r) as [s|]; [|done].
  exists s. split; [done|]. by apply bool_decide_unpack in Hs.
Qed.

(** X15. On the table the panels receive, the growth status of every
    line of [agg] is one of the four categories, and a group has at
    most four lines. *)
Theorem agg_four_categories lv geo loaded g :
  Forall (λ r, agg_Growth_status r ∈ ["Stunted"; "Wasted"; "Underweight"; "Normal"])
    (agg lv (prepare geo loaded))
  ∧ length (group_lines g (agg lv (prepare geo loaded))) ≤ 4.
Proof.
  assert (Hkey : ∀ k, k ∈ level_status_keys lv (prepare geo loaded) →
                      k.2 ∈ mal_types ++ ["Normal"]).
  { intros [g' s'] Hk. unfold level_status_keys in Hk.
    apply list_elem_of_omap in Hk as (r & Hr & Hk).
    apply level_status_key_Some in Hk as [_ Hs].
    pose proof (prepare_statuses geo loaded) as Hall.
    apply (proj1 (Forall_forall _ _) Hall) in Hr as (s & Hs' & Hin). by simplify_eq. }
  split.
  - apply Forall_forall. intros r (k & -> & Hk)%elem_of_agg. by apply Hkey.
  - rewrite group_lines_agg, length_fmap.
    set (F := filter _ _).
    assert (HF : NoDup F) by apply NoDup_filter, group_keys_NoDup.
    assert (Hg : ∀ k, k ∈ F → k.1 = g ∧ k ∈ level_status_keys lv (prepare geo loaded)).
    { intros k Hk. apply list_elem_of_filter in Hk as [? Hk]. by apply group_keys_elem in Hk. }
    rewrite <- (length_fmap snd F).
    change 4 with (length (mal_types ++ ["Normal"])).
    apply submseteq_length, NoDup_submseteq.
    + apply (NoDup_fmap_2_strong snd); [|done].
      intros [g1 s1] [g2 s2] H1 H2 Heq. simpl in Heq. subst.
      apply Hg in H1 as [? _], H2 as [? _]. simpl in *. by subst.
    + intros s (k & -> & Hk)%list_elem_of_fmap. by apply Hkey, Hg.
Qed.

Lemma omap_set_State {K} (f : Row (V:=V) → option K) (h : string → string)
    (l : list (Row (V:=V))) :
  (∀ r, f (set_State h r) = f r) → omap f (set_State h <$> l) = omap f l.
Proof.
  intros Hf. induction l as [|r l IH]; [done|].
  rewrite fmap_cons. simpl. rewrite Hf. destruct (f r); [f_equal|]; exact IH.
Qed.

(** X16. Only the states are reconciled: the [District] column is as it
    was loaded, and the aggregate by district is the same with or
    without the rename, whatever the canonical names. *)
Theorem district_aggregate_unreconciled geo df :
  District <$> rows (reconcile geo df) = District <$> rows df
  ∧ total ByDistrict (reconcile geo df) = total ByDistrict df
  ∧ agg ByDistrict (reconcile geo df) = agg ByDistrict df.
Proof.
  assert (H1 : level_keys ByDistrict (reconcile geo df) = level_keys ByDistrict df).
  { unfold level_keys. rewrite reconcile_eq. simpl. by apply omap_set_State. }
  assert (H2 : level_status_keys ByDistrict (reconcile geo df)
               = level_status_keys ByDistrict df).
  { unfold level_status_keys. rewrite reconcile_eq. simpl. by apply omap_set_State. }
  split; [|split].
  - rewrite reconcile_eq. simpl. by rewrite <- list_fmap_compose.
  - unfold total. by rewrite H1.
  - unfold agg, count_table, total. by rewrite H1, H2.
Qed.

(** X17. The rename merges groups: after it, the total of a state is
    the number of rows whose name became that state, and that is the
    sum of the totals that the names renamed to it had before. *)
Theorem state_totals_merge geo df g t :
  (g, t) ∈ total ByState (reconcile geo df) →
  t = length (filter (λ r, reconciled geo (State r) = g) (rows df))
  ∧ t = sum_list (snd <$> filter (λ nt, reconciled geo nt.1 = g) (total ByState df)).
Proof.
  assert (Hkeys : level_keys ByState (reconcile geo df) = reconciled geo <$> (State <$> rows df)).
  { unfold level_keys. rewrite reconcile_eq. simpl.
    induction (rows df) as [|r l IH]; [done|]. rewrite !fmap_cons. simpl. f_equal. exact IH. }
  assert (Hstates : level_keys ByState df = State <$> rows df).
  { unfold level_keys. induction (rows df) as [|r l IH]; [done|].
    rewrite fmap_cons. simpl. f_equal; try exact IH. }
  intros [_ ->]%elem_of_groupby_size. rewrite Hkeys.
  split.
  - by rewrite <- list_fmap_compose, occurrences_fmap.
  - rewrite occurrences_fmap. unfold total. rewrite groupby_size_eq, Hstates.
    set (L := merge_sort str_le _).
    rewrite <- (sum_occurrences (λ n, reconciled geo n = g) L (State <$> rows df))
      by (apply group_keys_NoDup || apply group_keys_elem).
    f_equal. clearbody L. induction L as [|n L IH]; [done|].
    rewrite fmap_cons, !filter_cons. simpl. case_decide; [rewrite !fmap_cons|]; by rewrite IH.
Qed.

End aggregate_more.

(** * The charts of panel 1 *)

Section charts_more.
Context {V : Type}.
Implicit Types (df : DataFrame (V:=V)) (lv : level) (mal_type : string).

#[local] Instance pct_ge_total : Total pct_ge.
Proof.
  intros r1 r2. unfold pct_ge.
  destruct (Qlt_le_dec (agg_percentage r1) (agg_percentage r2)) as [Hlt|Hle].
  - right. apply Is_true_true, Qle_bool_iff. by apply Qlt_le_weak.
  - left. by apply Is_true_true, Qle_bool_iff.
Qed.

#[local] Instance pct_ge_trans : Transitive pct_ge.
Proof.
  intros r1 r2 r3. unfold pct_ge. rewrite !Is_true_true, !Qle_bool_iff.
  intros H1 H2. by eapply Qle_trans.
Qed.

Lemma pct_ge_le (r1 r2 : AggRow) :
  pct_ge r1 r2 ↔ (agg_percentage r2 <= agg_percentage r1)%Q.
Proof. unfold pct_ge. by rewrite Is_true_true, Qle_bool_iff. Qed.

Lemma elem_of_subset lv df mal_type r :
  r ∈ subset mal_type (agg lv df) ↔ r ∈ agg lv df ∧ agg_Growth_status r = mal_type.
Proof.
  unfold subset. rewrite merge_sort_Permutation, list_elem_of_filter. tauto.
Qed.

Lemma agg_line_inj lv df (k1 k2 : string * string) :
  line_of lv df k1 = line_of lv df k2 → k1 = k2.
Proof. destruct k1, k2. unfold line_of. simpl. by intros [= -> ->]. Qed.

(** X18. The lines of one growth status: [subset] holds the lines of
    [agg] with that status and no other, one for each group that has
    rows of the status, in the order of decreasing percentage. *)
Theorem subset_sorted lv df mal_type :
  (∀ r, r ∈ subset mal_type (agg lv df) ↔ r ∈ agg lv df ∧ agg_Growth_status r = mal_type)
  ∧ NoDup (agg_level <$> subset mal_type (agg lv df))
  ∧ StronglySorted (λ r1 r2, (agg_percentage r2 <= agg_percentage r1)%Q)
      (subset mal_type (agg lv df)).
Proof.
  split; [intros r; apply elem_of_subset|]. split.
  - unfold subset. rewrite merge_sort_Permutation.
    apply (NoDup_fmap_2_strong agg_level).
    + intros r1 r2 [H1 Hr1]%list_elem_of_filter [H2 Hr2]%list_elem_of_filter Heq.
      rewrite agg_lines in Hr1, Hr2.
      apply list_elem_of_fmap in Hr1 as ([g1 s1] & -> & _), Hr2 as ([g2 s2] & -> & _).
      simpl in *. by subst.
    + apply NoDup_filter. rewrite agg_lines.
      apply (NoDup_fmap_2_strong (line_of lv df)); [|apply group_keys_NoDup].
      intros k1 k2 _ _. apply agg_line_inj.
  - assert (Hs : StronglySorted pct_ge (subset mal_type (agg lv df)))
      by (apply StronglySorted_merge_sort; apply _).
    induction Hs as [|x l _ IH Hx]; constructor; [done|].
    eapply Forall_impl; [exact Hx|]. intros y. apply pct_ge_le.
Qed.

(** X19. The bar chart of panel 1 shows at most 15 lines, all of them
    when there are no more than 15, and no line it leaves out has a
    greater percentage than a line it shows. The map is drawn from all
    the lines. *)
Theorem bar_shows_the_top_15 lv df mal_type :
  ∃ shown mapped,
    (tab1 lv mal_type df).1 = [bar shown; choropleth mapped]
    ∧ mapped.*1 = subset mal_type (agg lv df)
    ∧ length shown = length (subset mal_type (agg lv df)) `min` 15
    ∧ ∃ rest, subset mal_type (agg lv df) = shown ++ rest
              ∧ ∀ r r', r ∈ shown → r' ∈ rest → (agg_percentage r' <= agg_percentage r)%Q.
Proof.
  exists (take 15 (subset mal_type (agg lv df))),
         ((λ r, (r, highlight r)) <$> subset mal_type (agg lv df)).
  split; [done|]. split; [|split].
  - rewrite <- list_fmap_compose. apply list_fmap_id.
  - rewrite length_take. lia.
  - exists (drop 15 (subset mal_type (agg lv df))). split; [by rewrite take_drop|].
    intros r r' Hr Hr'. apply pct_ge_le.
    eapply (StronglySorted_app_1_elem_of pct_ge); [|done..].
    rewrite take_drop. apply StronglySorted_merge_sort; apply _.
Qed.

Lemma max_percentage_fold (m : Q) (l : list AggRow) :
  let m' := foldl (λ m r', if Qle_bool m (agg_percentage r') then agg_percentage r' else m) m l in
  (m <= m')%Q ∧ ∀ r, r ∈ l → (agg_percentage r <= m')%Q.
Proof.
  revert m. induction l as [|x l IH]; intros m; simpl.
  - split; [apply Qle_refl|]. by intros r ?%not_elem_of_nil.
  - destruct (IH (if Qle_bool m (agg_percentage x) then agg_percentage x else m)) as [Hm Hl].
    destruct (Qle_bool m (agg_percentage x)) eqn:Hle.
    + apply Qle_bool_iff in Hle. split; [by eapply Qle_trans|].
      intros r [->|Hr]%elem_of_cons; [done|by apply Hl].
    + assert (Hlt : (agg_percentage x <= m)%Q).
      { apply Qlt_le_weak, Qnot_le_lt. intros H%Qle_bool_iff. congruence. }
      split; [done|]. intros r [->|Hr]%elem_of_cons; [by eapply Qle_trans|by apply Hl].
Qed.

(** X20. The colour of a line on the map is its percentage when that is
    at least 20 and 0 otherwise. For the lines of [agg] it lies in the
    range of the colours, from 0 to the greatest percentage of
    [subset], which exists as soon as [subset] has a line. *)
Theorem highlight_in_range lv df mal_type r :
  r ∈ subset mal_type (agg lv df) →
  highlight r = (if Qle_bool 20 (agg_percentage r) then agg_percentage r else 0%Q)
  ∧ (0 <= highlight r)%Q ∧ (highlight r <= agg_percentage r)%Q
  ∧ ∃ m, max_percentage (subset mal_type (agg lv df)) = Some m ∧ (highlight r <= m)%Q.
Proof.
  intros Hr.
  assert (Hpos : (0 <= agg_percentage r)%Q).
  { apply elem_of_subset in Hr as [Hr _].
    apply elem_of_agg in Hr as (k & -> & Hk).
    apply Qlt_le_weak. by apply line_bounds. }
  assert (Hh : (0 <= highlight r)%Q ∧ (highlight r <= agg_percentage r)%Q).
  { unfold highlight, threshold. destruct (Qle_bool 20 (agg_percentage r)) eqn:Hle.
    - split; [done|apply Qle_refl].
    - split; [apply Qle_refl|done]. }
  split; [done|]. split; [apply Hh|]. split; [apply Hh|].
  destruct (subset mal_type (agg lv df)) as [|x l]; [by apply not_elem_of_nil in Hr|].
  simpl. eexists. split; [done|].
  destruct (max_percentage_fold (agg_percentage x) l) as [Hx Hl].
  eapply Qle_trans; [apply Hh|].
  apply elem_of_cons in Hr as [->|Hr]; [done|by apply Hl].
Qed.

End charts_more.

(** * The counts of panel 4 *)

Section reach_more.
Context {V : Type}.
Implicit Types (df : DataFrame (V:=V)).

Section reach.
Context `{EqDecision V} (V_le : relation V) `{!RelDecision V_le}.

Lemma state_value_keys_fst column df :
  (state_value_keys column df).*1
  = omap (λ r, others r !! column ≫= λ _, Some (State r)) (rows df).
Proof.
  unfold state_value_keys. induction (rows df) as [|r l IH]; [done|]. simpl.
  destruct (others r !! column); simpl; [f_equal|]; exact IH.
Qed.

(** X22. The counts of panel 4 for a column ([Immunization_status],
    [Supplementary_nutrition_received]): a line counts the rows of its
    state that hold its value, which are at least one; the counts of a
    state add up to the number of its rows that have a value in the
    column, so a row with a missing cell is in no bar. *)
Theorem coverage_counts column df g :
  (∀ v n, (g, v, n) ∈ coverage V_le column df →
          1 ≤ n ∧ n = length (filter (λ r, State r = g ∧ others r !! column = Some v) (rows df)))
  ∧ sum_list (snd <$> filter (λ line, line.1.1 = g) (coverage V_le column df))
    = length (filter (λ r, State r = g ∧ is_Some (others r !! column)) (rows df))
  ∧ length (filter (λ r, State r = g ∧ is_Some (others r !! column)) (rows df))
    ≤ length (filter (λ r, State r = g) (rows df)).
Proof.
  split; [|split].
  - intros v n [Hk ->]%elem_of_groupby_size. split; [by apply occurrences_pos|].
    unfold state_value_keys. rewrite occurrences_omap. f_equal.
    apply list_filter_iff. intros r. destruct (others r !! column) as [v'|]; simpl.
    + split; [by intros [= -> ->]|by intros [-> [= ->]]].
    + split; [done|by intros [_ ?]].
  - unfold coverage. rewrite groupby_size_eq.
    set (L := merge_sort _ _).
    assert (Hsum : sum_list (snd <$> filter (λ line : string * V * nat, line.1.1 = g)
                      ((λ k, (k, occurrences (state_value_keys column df) k)) <$> L))
                   = sum_list (occurrences (state_value_keys column df)
                                 <$> filter (λ k, k.1 = g) L)).
    { clearbody L. induction L as [|k L IH]; [done|].
      rewrite fmap_cons, !filter_cons. simpl.
      case_decide; [rewrite !fmap_cons; simpl|]; by rewrite IH. }
    rewrite Hsum, (sum_occurrences (λ k, k.1 = g) L (state_value_keys column df))
      by (apply group_keys_NoDup || apply group_keys_elem).
    rewrite <- occurrences_fst, state_value_keys_fst, occurrences_omap. f_equal.
    apply list_filter_iff. intros r. destruct (others r !! column) as [v'|]; simpl.
    + split; [intros [= ->]; by eauto|by intros [-> _]].
    + split; [done|by intros [_ [? ?]]].
  - apply length_filter_mono. tauto.
Qed.

End reach.

End reach_more.

(** * The further properties on the sample survey *)


Lemma reconcile_canonical_table_witness :
  Forall (λ r, State r ∈ boundary_names) (rows (table_of (V:=()) ["Kerala"; "Goa"]))
  ∧ reconcile boundary_names (table_of (V:=()) ["Kerala"; "Goa"])
    = table_of ["Kerala"; "Goa"].
Proof.
  assert (H : Forall (λ r, State r ∈ boundary_names)
                (rows (table_of (V:=()) ["Kerala"; "Goa"]))) by by_compute.
  split; [exact H|]. exact (proj2 (reconcile_canonical_table boundary_names _ H)).
Defined.

Lemma reconciled_state_cases_witness :
  rows (survey (V:=())) !! 5 = Some (child "Keralaa" "Idukki" "Wasted")
  ∧ rows (reconcile boundary_names (survey (V:=()))) !! 5
    = Some (child "Kerala" "Idukki" "Wasted")
  ∧ ("Kerala" ∈ boundary_names
     ∨ manual_fix !! "Keralaa" = Some "Kerala"
     ∨ ("Kerala" = "Keralaa" ∧ manual_fix !! "Keralaa" = None
        ∧ ∀ x, x ∈ boundary_names → (ratio (chars x) (chars "Keralaa") < cutoff)%Q)).
Proof.
  assert (H1 : rows (survey (V:=())) !! 5 = Some (child "Keralaa" "Idukki" "Wasted"))
    by reflexivity.
  assert (H2 : rows (reconcile boundary_names (survey (V:=()))) !! 5
               = Some (child "Kerala" "Idukki" "Wasted")) by (vm_compute; reflexivity).
  split; [exact H1|]. split; [exact H2|].
  exact (reconciled_state_cases boundary_names survey 5 _ _ H1 H2).
Defined.

Lemma fuzzy_target_shares_characters_witness :
  manual_fix !! "Keralaa" = None
  ∧ state_fix_map boundary_names (survey (V:=())) !! "Keralaa" = Some "Kerala"
  ∧ 3 * (length (chars "Kerala") + length (chars "Keralaa"))
    ≤ 10 * common (chars "Kerala") (chars "Keralaa").
Proof.
  assert (H1 : manual_fix !! "Keralaa" = None) by (vm_compute; reflexivity).
  assert (H2 : state_fix_map boundary_names (survey (V:=())) !! "Keralaa" = Some "Kerala")
    by (vm_compute; reflexivity).
  split; [exact H1|]. split; [exact H2|].
  exact (proj1 (fuzzy_target_shares_characters boundary_names survey _ _ H1 H2)).
Defined.

Lemma state_totals_merge_witness :
  ("Kerala", 2) ∈ total ByState (reconcile boundary_names (survey (V:=())))
  ∧ 2 = sum_list (snd <$> filter (λ nt, reconciled boundary_names nt.1 = "Kerala")
                            (total ByState (survey (V:=())))).
Proof.
  assert (H : ("Kerala", 2) ∈ total ByState (reconcile boundary_names (survey (V:=()))))
    by by_compute.
  split; [exact H|]. exact (proj2 (state_totals_merge boundary_names survey _ _ H)).
Defined.

Lemma highlight_in_range_witness :
  mkAggRow "Orissa" "Stunted" 2 3 (200 # 3)
    ∈ subset "Stunted" (agg ByState (prepare boundary_names (survey (V:=()))))
  ∧ (0 <= highlight (mkAggRow "Orissa" "Stunted" 2 3 (200 # 3)))%Q.
Proof.
  assert (H : mkAggRow "Orissa" "Stunted" 2 3 (200 # 3)
              ∈ subset "Stunted" (agg ByState (prepare boundary_names (survey (V:=()))))).
  { apply (list_elem_of_lookup_2 _ 0). vm_compute. reflexivity. }
  split; [exact H|].
  exact (proj1 (proj2 (highlight_in_range ByState _ "Stunted" _ H))).
Defined.
